(** * RSAES-PKCS1-v1_5 (lib/Crypto/Cipher/PKCS1_v1_5.py)

    A shallow embedding of [encrypt] and [decrypt] and of the helpers they
    call, followed by the properties of the padding scheme.

    Python byte strings are lists of [byte]; Python integers are [Z];
    exceptions are values of [exn] carried by [result]; the random source is
    a state-passing function; the only unbounded loop of the module (the
    redraw loop of [nonZeroRandByte]) takes fuel. *)

From Stdlib Require Import String.
From Stdlib Require Import ZArith List Lia Bool.
From Stdlib Require Import Init.Byte Strings.Byte.
Import ListNotations.

Local Open Scope Z_scope.

(** ** Byte strings *)

Definition bytes : Type := list byte.

Definition byte_to_Z (b : byte) : Z := Z.of_N (Byte.to_N b).

Definition byte_of_Z (z : Z) : byte :=
  match Byte.of_N (Z.to_N (z mod 256)) with
  | Some b => b
  | None => x00
  end.

(** The operations of Python 2 [str] that the module uses. *)
Module Str.

(** [len(s)] *)
Definition len (s : bytes) : Z := Z.of_nat (length s).

(** [s == t] *)
Fixpoint eqb (s t : bytes) : bool :=
  match s, t with
  | [], [] => true
  | a :: s', b :: t' => Byte.eqb a b && eqb s' t'
  | _, _ => false
  end.

(** [s * n]: the empty string when [n <= 0]. *)
Definition mul (s : bytes) (n : Z) : bytes :=
  concat (repeat s (Z.to_nat n)).

(** Iterating over a string yields its characters as one-byte strings. *)
Definition chars (s : bytes) : list bytes := map (fun b => [b]) s.

(** ["".join(l)] *)
Definition join (l : list bytes) : bytes := concat l.

(** [s.startswith(p)] *)
Fixpoint startswith (s p : bytes) : bool :=
  match p with
  | [] => true
  | b :: p' =>
      match s with
      | [] => false
      | a :: s' => Byte.eqb a b && startswith s' p'
      end
  end.

Fixpoint find_at (c : byte) (s : bytes) (i : Z) : Z :=
  match s with
  | [] => -1
  | b :: s' => if Byte.eqb b c then i else find_at c s' (i + 1)
  end.

(** [s.find(c, start)] for a one-byte [c] and [0 <= start]: the lowest
    index at or after [start] holding [c], or [-1]. *)
Definition find (s : bytes) (c : byte) (start : Z) : Z :=
  find_at c (skipn (Z.to_nat start) s) start.

(** [s[i:]], a negative [i] counting from the end. *)
Definition slice_from (s : bytes) (i : Z) : bytes :=
  skipn (Z.to_nat (if i <? 0 then Z.max 0 (i + len s) else i)) s.

End Str.

(** ** Exceptions and results *)

Inductive exn : Type :=
| ValueError (msg : string)
| TypeError (msg : string).

Inductive result (A : Type) : Type :=
| Return (a : A)
| Raise (e : exn)
| OutOfFuel.

Arguments Return {A} a.
Arguments Raise {A} e.
Arguments OutOfFuel {A}.

(** ** Crypto.Util.number *)

Module Number.

(** Modelled from the spec: [Crypto.Util.number.size], the bit length of
    a non-negative integer (the spec's modulusSizeBits), 0 for 0. *)
Definition size (N : Z) : Z :=
  if 0 <? N then Z.log2 N + 1 else 0.

(** Modelled from the spec: [Crypto.Util.number.ceil_div], ceil(a / b)
    for [0 <= a] and [0 < b] (the spec's k = ceil(modulusBits / 8)). *)
Definition ceil_div (a b : Z) : Z :=
  if a mod b =? 0 then a / b else a / b + 1.

(** Modelled from the spec: [Crypto.Util.number.bytes_to_long], a byte
    string read as a big-endian unsigned integer. *)
Definition bytes_to_long (s : bytes) : Z :=
  fold_left (fun acc b => acc * 256 + byte_to_Z b) s 0.

Fixpoint long_to_bytes_loop (fuel : nat) (n : Z) (s : bytes) : bytes :=
  match fuel with
  | O => s
  | S fuel' =>
      if 0 <? n
      then long_to_bytes_loop fuel' (n / 256) (byte_of_Z (n mod 256) :: s)
      else s
  end.

(** Modelled from the spec: [Crypto.Util.number.long_to_bytes] with its
    default block size, the shortest big-endian encoding of an integer;
    an integer that is not positive encodes to the single byte 0x00.  The
    loop runs once per byte, so the bit length is fuel enough. *)
Definition long_to_bytes (n : Z) : bytes :=
  match long_to_bytes_loop (Z.to_nat (size n)) n [] with
  | [] => [x00]
  | s => s
  end.

End Number.

(** ** The RSA key object *)

(** Modelled from the spec: the key of [Crypto.PublicKey.RSA], which is
    not part of this module: its modulus [n], the public transform, and the
    private transform, present only when the key has its private half. *)
Record Key : Type := mkKey {
  n : Z;
  publicTransform : Z -> Z;
  privateTransform : option (Z -> Z)
}.

(** Modelled from the spec: [key.encrypt(em, 0)[0]], the public transform
    of the big-endian value of [em], encoded by [long_to_bytes]. *)
Definition key_encrypt (key : Key) (em : bytes) : bytes :=
  Number.long_to_bytes (publicTransform key (Number.bytes_to_long em)).

(** Modelled from the spec: [key.decrypt(ct)], the private transform of
    the big-endian value of [ct], encoded by [long_to_bytes]; a key without
    its private half raises [TypeError]. *)
Definition key_decrypt (key : Key) (ct : bytes) : result bytes :=
  match privateTransform key with
  | Some f => Return (Number.long_to_bytes (f (Number.bytes_to_long ct)))
  | None => Raise (TypeError "No private key")
  end.

(** Modelled from the spec: an RSA key built from a modulus and its
    exponents, each transform a modular exponentiation. *)
Definition RSA_construct (modulus e : Z) (d : option Z) : Key :=
  {| n := modulus;
     publicTransform := fun m => m ^ e mod modulus;
     privateTransform :=
       match d with
       | Some d' => Some (fun c => c ^ d' mod modulus)
       | None => None
       end |}.

(** [k]: the size of the modulus in bytes, as both functions compute it. *)
Definition modulus_bytes (key : Key) : Z :=
  Number.ceil_div (Number.size (n key)) 8.

(** ** encrypt *)

Section Encrypt.

(** The random source [randFunc]: called with a byte count in a state,
    it returns a byte string and the next state. *)
Context {St : Type}.
Variable randFunc : Z -> St -> bytes * St.

(** [nonZeroRandByte(randFunc)(c)]: redraw one byte while [c] is 0x00. *)
Fixpoint nonZeroRandByte (fuel : nat) (c : bytes) (s : St)
  : option (bytes * St) :=
  if Str.eqb c [x00] then
    match fuel with
    | O => None
    | S fuel' =>
        let (c', s') := randFunc 1 s in nonZeroRandByte fuel' c' s'
    end
  else Some (c, s).

(** [map(nonZeroRandByte(randFunc), cs)], left to right; [fuel] bounds
    the redraws of each call. *)
Fixpoint map_nonZeroRandByte (fuel : nat) (cs : list bytes) (s : St)
  : option (list bytes * St) :=
  match cs with
  | [] => Some ([], s)
  | c :: cs' =>
      match nonZeroRandByte fuel c s with
      | None => None
      | Some (c', s1) =>
          match map_nonZeroRandByte fuel cs' s1 with
          | None => None
          | Some (r, s2) => Some (c' :: r, s2)
          end
      end
  end.

(** Steps 1 to 2b of [encrypt]: the encoded message [em]. *)
Definition encode (fuel : nat) (message : bytes) (key : Key) (s : St)
  : result (bytes * St) :=
  let modBits := Number.size (n key) in
  let k := Number.ceil_div modBits 8 in
  let mLen := Str.len message in
  if mLen >? k - 11 then Raise (ValueError "Plaintext is too long.")
  else
    let (raw, s1) := randFunc (k - mLen - 3) s in
    match map_nonZeroRandByte fuel (Str.chars raw) s1 with
    | None => OutOfFuel
    | Some (pss, s2) =>
        let ps := Str.join pss in
        let em := [x00; x02] ++ ps ++ [x00] ++ message in
        Return (em, s2)
    end.

(** [encrypt(message, key, randFunc)] *)
Definition encrypt (fuel : nat) (message : bytes) (key : Key) (s : St)
  : result (bytes * St) :=
  match encode fuel message key s with
  | Return (em, s2) =>
      let k := modulus_bytes key in
      let m := key_encrypt key em in
      let c := Str.mul [x00] (k - Str.len m) ++ m in
      Return (c, s2)
  | Raise e => Raise e
  | OutOfFuel => OutOfFuel
  end.

End Encrypt.

(** ** decrypt *)

(** Steps 1 and 2 of [decrypt]: the re-encoded block [em]. *)
Definition decode (ct : bytes) (key : Key) : result bytes :=
  let modBits := Number.size (n key) in
  let k := Number.ceil_div modBits 8 in
  if negb (Str.len ct =? k)
  then Raise (ValueError "Ciphertext with incorrect length.")
  else
    match key_decrypt key ct with
    | Return m => Return (Str.mul [x00] (k - Str.len m) ++ m)
    | Raise e => Raise e
    | OutOfFuel => OutOfFuel
    end.

(** [decrypt(ct, key, sentinel)] *)
Definition decrypt (ct : bytes) (key : Key) (sentinel : bytes)
  : result bytes :=
  match decode ct key with
  | Return em =>
      let sep := Str.find em x00 2 in
      if negb (Str.startswith em [x00; x02]) || (sep <? 10)
      then Return sentinel
      else Return (Str.slice_from em (sep + 1))
  | Raise e => Raise e
  | OutOfFuel => OutOfFuel
  end.

(** ** Concrete collaborators

    A key and a random source to run the functions on. *)

(** A 127-bit modulus: [k = 16]. *)
Definition demo_modulus : Z := 2 ^ 127 - 1.

(** A key with both halves whose transforms are inverse rotations of the
    residues modulo [demo_modulus]. *)
Definition demo_key : Key :=
  {| n := demo_modulus;
     publicTransform := fun m => (m + 1) mod demo_modulus;
     privateTransform := Some (fun c => (c - 1) mod demo_modulus) |}.

(** The same modulus with the public half only. *)
Definition demo_public_key : Key :=
  {| n := demo_modulus;
     publicTransform := fun m => (m + 1) mod demo_modulus;
     privateTransform := None |}.

(** A random source that alternates 0x00 and 0x41; its state tells which
    byte comes next. *)
Fixpoint alternate (count : nat) (s : bool) : bytes * bool :=
  match count with
  | O => ([], s)
  | S count' =>
      let (r, s') := alternate count' (negb s) in
      ((if s then x00 else x41) :: r, s')
  end.

Definition demo_rand (count : Z) (s : bool) : bytes * bool :=
  alternate (Z.to_nat count) s.

Definition demo_message : bytes := [x68; x00; x69].

Definition demo_sentinel : bytes := [xff; xfe].

(** A well-formed block whose message is [demo_sentinel], and the
    ciphertext that [demo_key] decodes to it. *)
Definition coincident_block : bytes :=
  [x00; x02] ++ repeat x41 11 ++ [x00] ++ demo_sentinel.

Definition coincident_ciphertext : bytes :=
  [x00; x02] ++ repeat x41 11 ++ [x00; xff; xff].

(** A ciphertext that [demo_key] decodes to a block starting 0x00 0x03. *)
Definition malformed_ciphertext : bytes :=
  [x00; x03] ++ repeat x41 14.

(** A ciphertext whose private transform is 0, which encodes to fewer
    than [k] bytes. *)
Definition small_ciphertext : bytes := repeat x00 15 ++ [x01].

(** A ciphertext one byte short of the modulus. *)
Definition short_ciphertext : bytes := repeat x41 15.

(** A message one byte too long for the modulus. *)
Definition long_message : bytes := repeat x41 6.

(** A random source that only yields 0x41; it has no state to speak of. *)
Definition steady_rand (count : Z) (s : unit) : bytes * unit :=
  (repeat x41 (Z.to_nat count), s).

(** A 64-bit modulus: [k = 8], too short for any padding. *)
Definition tiny_modulus : Z := 2 ^ 64 - 1.

Definition tiny_key : Key :=
  {| n := tiny_modulus;
     publicTransform := fun m => (m + 1) mod tiny_modulus;
     privateTransform := Some (fun c => (c - 1) mod tiny_modulus) |}.

(** ** Reference definitions, in the words of the specification *)

(** I2OSP of RFC 3447: the big-endian encoding of [x] on exactly [len]
    bytes, zero-padded on the left. *)
Fixpoint I2OSP (len : nat) (x : Z) : bytes :=
  match len with
  | O => []
  | S len' => I2OSP len' (x / 256) ++ [byte_of_Z (x mod 256)]
  end.

(** Bytes 0 and 1 of the block are 0x00 0x02. *)
Definition prefix_ok (em : bytes) : Prop :=
  nth_error em 0 = Some x00 /\ nth_error em 1 = Some x02.

(** [i] is the index of the first 0x00 byte at or after index 2. *)
Definition first_zero_from_2 (em : bytes) (i : nat) : Prop :=
  (2 <= i)%nat /\ nth_error em i = Some x00 /\
  forall j, (2 <= j < i)%nat -> nth_error em j <> Some x00.

(** The block fails structural validation: the prefix check fails, or no
    zero byte is found, or the separator comes before index 10. *)
Definition validation_fails (em : bytes) : Prop :=
  ~ prefix_ok em \/
  (forall i, (2 <= i)%nat -> nth_error em i <> Some x00) \/
  (exists i, first_zero_from_2 em i /\ (i < 10)%nat).

(** A one-byte string other than 0x00. *)
Definition nonzero_char (c : bytes) : Prop :=
  exists b, c = [b] /\ b <> x00.

(** ** Contracts of the collaborators *)

(** An RSA transform is an exponentiation modulo [n]: its results are
    residues of a positive modulus. *)
Definition valid_key (key : Key) : Prop :=
  0 < n key /\
  (forall x, 0 <= publicTransform key x < n key) /\
  (forall f, privateTransform key = Some f -> forall x, 0 <= f x < n key).

(** The private transform inverts the public transform on the residues. *)
Definition private_inverts_public (key : Key) : Prop :=
  exists f, privateTransform key = Some f /\
            forall x, 0 <= x < n key -> f (publicTransform key x) = x.

Section RandomSource.

Context {St : Type}.
Variable randFunc : Z -> St -> bytes * St.

(** [randFunc(count)] returns [count] bytes. *)
Definition rand_contract : Prop :=
  forall count s, 0 <= count ->
    length (fst (randFunc count s)) = Z.to_nat count.

(** From state [s], drawing one byte at a time reaches a byte that is
    not 0x00. *)
Inductive redraw_stops : St -> Prop :=
| redraw_now (s : St) :
    Str.eqb (fst (randFunc 1 s)) [x00] = false -> redraw_stops s
| redraw_later (s : St) :
    redraw_stops (snd (randFunc 1 s)) -> redraw_stops s.

(** The source never yields 0x00 for ever. *)
Definition rand_productive : Prop := forall s, redraw_stops s.

(** Rejection sampling, in the words of the specification: from state
    [s], single-byte draws that give 0x00 are discarded, and [b] is the
    first byte drawn that is not 0x00, leaving the source in [s']. *)
Inductive redrawn : St -> byte -> St -> Prop :=
| redrawn_first (s : St) (b : byte) (s' : St) :
    randFunc 1 s = ([b], s') -> b <> x00 -> redrawn s b s'
| redrawn_next (s s1 : St) (b : byte) (s' : St) :
    randFunc 1 s = ([x00], s1) -> redrawn s1 b s' -> redrawn s b s'.

(** The padding string [ps] read off the source: the bytes of the first
    draw [raw], from left to right, each 0x00 among them replaced by a byte
    redrawn from the source; [s] is the state after the first draw and [s']
    the state after the last redraw. *)
Inductive padding_drawn : bytes -> St -> bytes -> St -> Prop :=
| padding_done (s : St) : padding_drawn [] s [] s
| padding_keep (b : byte) (raw : bytes) (s : St) (ps : bytes) (s' : St) :
    b <> x00 ->
    padding_drawn raw s ps s' ->
    padding_drawn (b :: raw) s (b :: ps) s'
| padding_redraw (raw : bytes) (s s1 : St) (b : byte) (ps : bytes)
    (s' : St) :
    redrawn s b s1 ->
    padding_drawn raw s1 ps s' ->
    padding_drawn (x00 :: raw) s (b :: ps) s'.

End RandomSource.

(** ** Bytes and integers *)

Lemma byte_to_Z_range (b : byte) : 0 <= byte_to_Z b < 256.
Proof.
  unfold byte_to_Z. pose proof (Byte.to_N_bounded b). lia.
Qed.

Lemma byte_of_to_Z (b : byte) : byte_of_Z (byte_to_Z b) = b.
Proof.
  unfold byte_of_Z. pose proof (byte_to_Z_range b) as Hr.
  rewrite Z.mod_small by exact Hr.
  unfold byte_to_Z. rewrite N2Z.id, Byte.of_to_N. reflexivity.
Qed.

Lemma byte_to_of_Z (z : Z) : byte_to_Z (byte_of_Z z) = z mod 256.
Proof.
  unfold byte_of_Z, byte_to_Z.
  assert (Hr : 0 <= z mod 256 < 256) by (apply Z.mod_pos_bound; lia).
  destruct (Byte.of_N (Z.to_N (z mod 256))) as [b|] eqn:E.
  - apply Byte.to_of_N in E. rewrite E. lia.
  - apply Byte.of_N_None_iff in E. lia.
Qed.

Lemma byte_to_Z_inj (a b : byte) : byte_to_Z a = byte_to_Z b -> a = b.
Proof.
  intro H. rewrite <- (byte_of_to_Z a), <- (byte_of_to_Z b), H. reflexivity.
Qed.

Lemma byte_eqb_eq (a b : byte) : Byte.eqb a b = true <-> a = b.
Proof.
  split.
  - apply Byte.byte_dec_bl.
  - apply Byte.byte_dec_lb.
Qed.

Lemma byte_eqb_neq (a b : byte) : Byte.eqb a b = false <-> a <> b.
Proof.
  rewrite <- byte_eqb_eq. destruct (Byte.eqb a b); intuition congruence.
Qed.

Lemma byte_of_Z_zero (z : Z) : byte_of_Z z = x00 <-> z mod 256 = 0.
Proof.
  split; intro H.
  - rewrite <- byte_to_of_Z, H. reflexivity.
  - apply byte_to_Z_inj. rewrite byte_to_of_Z, H. reflexivity.
Qed.

Lemma pow256_pos (l : nat) : 0 < 256 ^ Z.of_nat l.
Proof. apply Z.pow_pos_nonneg; lia. Qed.

Lemma pow256_succ (l : nat) : 256 ^ Z.of_nat (S l) = 256 * 256 ^ Z.of_nat l.
Proof. rewrite Nat2Z.inj_succ, Z.pow_succ_r by lia. reflexivity. Qed.

Module NumberFacts.
Import Number.

Lemma bytes_to_long_acc (s : bytes) (acc : Z) :
  fold_left (fun a b => a * 256 + byte_to_Z b) s acc
  = acc * 256 ^ Z.of_nat (length s) + bytes_to_long s.
Proof.
  unfold bytes_to_long. revert acc.
  induction s as [|b s IH]; intro acc.
  - simpl. lia.
  - cbn [fold_left length]. rewrite IH, (IH (0 * 256 + byte_to_Z b)).
    rewrite pow256_succ. lia.
Qed.

Lemma bytes_to_long_cons (b : byte) (s : bytes) :
  bytes_to_long (b :: s)
  = byte_to_Z b * 256 ^ Z.of_nat (length s) + bytes_to_long s.
Proof.
  unfold bytes_to_long at 1. cbn [fold_left].
  rewrite bytes_to_long_acc. lia.
Qed.

Lemma bytes_to_long_app (s t : bytes) :
  bytes_to_long (s ++ t)
  = bytes_to_long s * 256 ^ Z.of_nat (length t) + bytes_to_long t.
Proof.
  unfold bytes_to_long at 1. rewrite fold_left_app.
  fold (bytes_to_long s). apply bytes_to_long_acc.
Qed.

Lemma bytes_to_long_snoc (s : bytes) (b : byte) :
  bytes_to_long (s ++ [b]) = bytes_to_long s * 256 + byte_to_Z b.
Proof.
  rewrite bytes_to_long_app. unfold bytes_to_long at 2. simpl. lia.
Qed.

Lemma bytes_to_long_range (s : bytes) :
  0 <= bytes_to_long s < 256 ^ Z.of_nat (length s).
Proof.
  induction s as [|b s IH] using rev_ind.
  - cbn. lia.
  - rewrite bytes_to_long_snoc, length_app, Nat.add_comm. cbn [length Nat.add].
    rewrite pow256_succ. pose proof (byte_to_Z_range b). lia.
Qed.

Lemma bytes_to_long_zeros (j : nat) (s : bytes) :
  bytes_to_long (repeat x00 j ++ s) = bytes_to_long s.
Proof.
  induction j as [|j IH]; [reflexivity|].
  cbn [repeat app]. rewrite bytes_to_long_cons, IH. cbn. lia.
Qed.

End NumberFacts.

(** ** Fixed-width and shortest encodings *)

Module EncodingFacts.
Import Number NumberFacts.

Lemma I2OSP_length (len : nat) (x : Z) : length (I2OSP len x) = len.
Proof.
  revert x. induction len as [|len IH]; intro x; [reflexivity|].
  cbn [I2OSP]. rewrite length_app, IH. cbn. lia.
Qed.

Lemma I2OSP_zero (len : nat) : I2OSP len 0 = repeat x00 len.
Proof.
  induction len as [|len IH]; [reflexivity|].
  cbn [I2OSP]. rewrite Zdiv_0_l, IH.
  change (byte_of_Z (0 mod 256)) with x00.
  rewrite <- repeat_cons. reflexivity.
Qed.

Lemma bytes_to_long_I2OSP (len : nat) (x : Z) :
  bytes_to_long (I2OSP len x) = x mod 256 ^ Z.of_nat len.
Proof.
  revert x. induction len as [|len IH]; intro x.
  - cbn. rewrite Z.mod_1_r. reflexivity.
  - cbn [I2OSP]. rewrite bytes_to_long_snoc, IH, byte_to_of_Z, pow256_succ.
    pose proof (pow256_pos len).
    rewrite (Z.rem_mul_r x 256 (256 ^ Z.of_nat len)) by lia.
    rewrite Z.mod_mod by lia. ring.
Qed.

Lemma bytes_to_long_I2OSP_small (len : nat) (x : Z) :
  0 <= x < 256 ^ Z.of_nat len -> bytes_to_long (I2OSP len x) = x.
Proof.
  intro H. rewrite bytes_to_long_I2OSP. apply Z.mod_small, H.
Qed.

Lemma I2OSP_bytes_to_long (s : bytes) :
  I2OSP (length s) (bytes_to_long s) = s.
Proof.
  induction s as [|b s IH] using rev_ind; [reflexivity|].
  rewrite length_app, Nat.add_comm. cbn [length Nat.add I2OSP].
  rewrite bytes_to_long_snoc. pose proof (byte_to_Z_range b) as Hb.
  replace ((bytes_to_long s * 256 + byte_to_Z b) / 256)
    with (bytes_to_long s)
    by (apply Z.div_unique with (r := byte_to_Z b); lia).
  replace ((bytes_to_long s * 256 + byte_to_Z b) mod 256)
    with (byte_to_Z b)
    by (apply Z.mod_unique with (q := bytes_to_long s); lia).
  rewrite IH, byte_of_to_Z. reflexivity.
Qed.

(** The loop of [long_to_bytes] prepends to [s] an encoding of [n] that
    left-pads to the encoding of [n] on any sufficient width. *)
Lemma long_to_bytes_loop_spec (fuel : nat) :
  forall (x : Z) (s : bytes),
    0 <= x < 2 ^ Z.of_nat fuel ->
    exists t,
      long_to_bytes_loop fuel x s = t ++ s /\
      forall len : nat,
        x < 256 ^ Z.of_nat len ->
        (length t <= len)%nat /\
        repeat x00 (len - length t) ++ t = I2OSP len x.
Proof.
  induction fuel as [|fuel IH]; intros x s Hx.
  - exists []. split; [reflexivity|]. intros len _.
    assert (x = 0) by (cbn in Hx; lia). subst x.
    split; [cbn; lia|]. rewrite I2OSP_zero, app_nil_r. cbn [length].
    rewrite Nat.sub_0_r. reflexivity.
  - cbn [long_to_bytes_loop]. destruct (0 <? x) eqn:Hpos.
    + apply Z.ltb_lt in Hpos.
      assert (Hq : 0 <= x / 256 < 2 ^ Z.of_nat fuel).
      { split; [apply Z.div_pos; lia|].
        rewrite Nat2Z.inj_succ, Z.pow_succ_r in Hx by lia.
        apply Z.div_lt_upper_bound; lia. }
      destruct (IH (x / 256) (byte_of_Z (x mod 256) :: s) Hq)
        as [t [Ht Hpad]].
      exists (t ++ [byte_of_Z (x mod 256)]). split.
      * rewrite Ht, <- app_assoc. reflexivity.
      * intros [|len] Hlen; [cbn in Hlen; lia|].
        rewrite pow256_succ in Hlen.
        assert (Hlen' : x / 256 < 256 ^ Z.of_nat len)
          by (apply Z.div_lt_upper_bound; lia).
        destruct (Hpad len Hlen') as [Hl He].
        rewrite length_app. cbn [length I2OSP]. split; [lia|].
        rewrite <- He, <- app_assoc.
        replace (S len - (length t + 1))%nat with (len - length t)%nat
          by lia.
        rewrite app_assoc. reflexivity.
    + apply Z.ltb_ge in Hpos. assert (x = 0) by lia. subst x.
      exists []. split; [reflexivity|]. intros len _.
      split; [cbn; lia|]. rewrite I2OSP_zero, app_nil_r. cbn [length].
      rewrite Nat.sub_0_r. reflexivity.
Qed.

Lemma size_fuel (x : Z) : 0 <= x -> x < 2 ^ Z.of_nat (Z.to_nat (size x)).
Proof.
  intro Hx. unfold size. destruct (0 <? x) eqn:Hpos.
  - apply Z.ltb_lt in Hpos. pose proof (Z.log2_nonneg x).
    rewrite Z2Nat.id by lia.
    replace (Z.log2 x + 1) with (Z.succ (Z.log2 x)) by lia.
    apply Z.log2_spec, Hpos.
  - apply Z.ltb_ge in Hpos. cbn. lia.
Qed.

Lemma str_mul_zero (j : Z) : Str.mul [x00] j = repeat x00 (Z.to_nat j).
Proof.
  unfold Str.mul. induction (Z.to_nat j) as [|i IH]; [reflexivity|].
  cbn [repeat concat]. rewrite IH. reflexivity.
Qed.

(** Left-padding the shortest encoding to [len] bytes yields the
    fixed-width encoding, whenever the integer fits in [len >= 1] bytes. *)
Lemma pad_long_to_bytes (len : nat) (x : Z) :
  (1 <= len)%nat -> 0 <= x < 256 ^ Z.of_nat len ->
  Str.mul [x00] (Z.of_nat len - Str.len (long_to_bytes x))
    ++ long_to_bytes x
  = I2OSP len x.
Proof.
  intros Hlen Hx. rewrite str_mul_zero. unfold Str.len, long_to_bytes.
  destruct (long_to_bytes_loop_spec (Z.to_nat (size x)) x [])
    as [t [Ht Hpad]]; [split; [lia | apply size_fuel; lia]|].
  rewrite app_nil_r in Ht. rewrite Ht.
  destruct (Hpad len) as [Hl He]; [lia|].
  destruct t as [|b t].
  - cbn [length app] in *. rewrite app_nil_r, Nat.sub_0_r in He.
    rewrite <- He.
    replace (Z.to_nat (Z.of_nat len - Z.of_nat 1)) with (len - 1)%nat
      by lia.
    destruct len as [|len]; [lia|]. cbn [Nat.sub].
    rewrite Nat.sub_0_r. cbn [repeat]. rewrite <- repeat_cons.
    reflexivity.
  - rewrite <- He. f_equal. f_equal. lia.
Qed.

End EncodingFacts.

(** ** Strings *)

Module StrFacts.

Lemma eqb_eq (s t : bytes) : Str.eqb s t = true <-> s = t.
Proof.
  revert t. induction s as [|a s IH]; intros [|b t]; cbn;
    try (split; [discriminate | congruence]); [tauto|].
  rewrite andb_true_iff, byte_eqb_eq, IH. split.
  - intros [-> ->]. reflexivity.
  - intro H. inversion H. auto.
Qed.

Lemma eqb_neq (s t : bytes) : Str.eqb s t = false <-> s <> t.
Proof.
  rewrite <- eqb_eq. destruct (Str.eqb s t); intuition congruence.
Qed.

Lemma startswith_prefix (em : bytes) :
  Str.startswith em [x00; x02] = true <-> prefix_ok em.
Proof.
  unfold prefix_ok. destruct em as [|a [|b em]]; cbn.
  - split; [discriminate | intros [H _]; discriminate].
  - rewrite andb_false_r. split; [discriminate | intros [_ H]; discriminate].
  - rewrite !andb_true_iff, !byte_eqb_eq. split.
    + intros [-> [-> _]]. auto.
    + intros [H1 H2]. inversion H1. inversion H2.
      destruct em; auto.
Qed.

(** [find_at] returns [-1] when the byte is absent and otherwise the
    offset of its first occurrence, counted from [i]. *)
Lemma find_at_spec (c : byte) (s : bytes) :
  forall i : Z,
    (Str.find_at c s i = -1 /\ forall j, nth_error s j <> Some c) \/
    (exists j : nat,
        Str.find_at c s i = i + Z.of_nat j /\
        nth_error s j = Some c /\
        forall j', (j' < j)%nat -> nth_error s j' <> Some c).
Proof.
  induction s as [|b s IH]; intro i.
  - left. split; [reflexivity|]. intros [|j]; discriminate.
  - cbn [Str.find_at]. destruct (Byte.eqb b c) eqn:E.
    + apply byte_eqb_eq in E. subst b. right. exists 0%nat.
      split; [lia|]. split; [reflexivity|]. intros j' Hj'. lia.
    + apply byte_eqb_neq in E.
      destruct (IH (i + 1)) as [[Hm Hn] | [j [Hf [Hj Hmin]]]].
      * left. split; [exact Hm|]. intros [|j]; cbn; [congruence | apply Hn].
      * right. exists (S j). split; [lia|]. split; [exact Hj|].
        intros [|j'] Hlt; cbn; [congruence | apply Hmin; lia].
Qed.

(** [em.find('\x00', 2)] against the specification's separator. *)
Lemma find_spec (em : bytes) :
  (Str.find em x00 2 = -1 /\
   forall i, (2 <= i)%nat -> nth_error em i <> Some x00) \/
  (exists i : nat,
      Str.find em x00 2 = Z.of_nat i /\ first_zero_from_2 em i).
Proof.
  unfold Str.find.
  destruct (find_at_spec x00 (skipn (Z.to_nat 2) em) 2)
    as [[Hm Hn] | [j [Hf [Hj Hmin]]]].
  - left. split; [exact Hm|]. intros i Hi.
    replace i with (Z.to_nat 2 + (i - 2))%nat by lia.
    rewrite <- nth_error_skipn. apply Hn.
  - right. exists (2 + j)%nat. split; [lia|]. split; [lia|]. split.
    + rewrite nth_error_skipn in Hj. exact Hj.
    + intros j' Hj'. replace j' with (Z.to_nat 2 + (j' - 2))%nat by lia.
      rewrite <- nth_error_skipn. apply Hmin. lia.
Qed.

Lemma first_zero_unique (em : bytes) (i j : nat) :
  first_zero_from_2 em i -> first_zero_from_2 em j -> i = j.
Proof.
  intros [Hi [Hzi Hmi]] [Hj [Hzj Hmj]].
  destruct (Nat.lt_trichotomy i j) as [H | [H | H]]; [|exact H|].
  - exfalso. apply (Hmj i); [lia | exact Hzi].
  - exfalso. apply (Hmi j); [lia | exact Hzj].
Qed.

(** The test of step 3 of [decrypt] decides the specification's
    validation. *)
Lemma validation_test (em : bytes) :
  negb (Str.startswith em [x00; x02]) || (Str.find em x00 2 <? 10) = true
  <-> validation_fails em.
Proof.
  unfold validation_fails.
  rewrite orb_true_iff, negb_true_iff, Z.ltb_lt, <- startswith_prefix.
  split.
  - intros [Hp | Hs].
    + left. congruence.
    + destruct (find_spec em) as [[_ Hn] | [i [Hf Hz]]].
      * right. left. exact Hn.
      * right. right. exists i. split; [exact Hz | lia].
  - intros [Hp | [Hn | [i [Hz Hlt]]]].
    + left. destruct (Str.startswith em [x00; x02]); congruence.
    + right. destruct (find_spec em) as [[Hm _] | [i [_ [Hi [Hz _]]]]].
      * lia.
      * exfalso. exact (Hn i Hi Hz).
    + right. destruct (find_spec em) as [[_ Hn] | [j [Hf Hj]]].
      * exfalso. destruct Hz as [Hi [Hz _]]. exact (Hn i Hi Hz).
      * rewrite (first_zero_unique em i j Hz Hj) in Hlt. lia.
Qed.

Lemma slice_from_nonneg (s : bytes) (i : nat) :
  Str.slice_from s (Z.of_nat i) = skipn i s.
Proof.
  unfold Str.slice_from.
  destruct (Z.of_nat i <? 0) eqn:E; [apply Z.ltb_lt in E; lia|].
  rewrite Nat2Z.id. reflexivity.
Qed.

End StrFacts.

(** ** The size of the modulus *)

Module KeyFacts.
Import Number.

Lemma pow256_pow2 (j : Z) : 0 <= j -> 256 ^ j = 2 ^ (8 * j).
Proof. intro Hj. rewrite Z.pow_mul_r by lia. reflexivity. Qed.

(** A positive modulus occupies [k] bytes and no fewer. *)
Lemma modulus_bytes_bounds (key : Key) :
  0 < n key ->
  1 <= modulus_bytes key /\
  256 ^ (modulus_bytes key - 1) <= n key < 256 ^ modulus_bytes key.
Proof.
  intro Hn. unfold modulus_bytes, size, ceil_div.
  assert (E : (0 <? n key) = true) by (apply Z.ltb_lt; exact Hn).
  rewrite E. pose proof (Z.log2_nonneg (n key)) as Hl.
  destruct (Z.log2_spec (n key) Hn) as [Hlo Hhi].
  generalize dependent (Z.log2 (n key)). intros b Hl Hlo Hhi.
  set (k := if (b + 1) mod 8 =? 0 then (b + 1) / 8 else (b + 1) / 8 + 1).
  assert (Hk : 8 * (k - 1) <= b < 8 * k).
  { subst k. destruct ((b + 1) mod 8 =? 0) eqn:Em.
    - apply Z.eqb_eq in Em. Z.div_mod_to_equations. lia.
    - apply Z.eqb_neq in Em. Z.div_mod_to_equations. lia. }
  clearbody k.
  split; [lia|]. rewrite !pow256_pow2 by lia. split.
  - apply Z.le_trans with (2 ^ b); [|exact Hlo].
    apply Z.pow_le_mono_r; lia.
  - apply Z.lt_le_trans with (2 ^ Z.succ b); [exact Hhi|].
    apply Z.pow_le_mono_r; lia.
Qed.

Lemma modulus_bytes_nat (key : Key) :
  0 < n key ->
  (1 <= Z.to_nat (modulus_bytes key))%nat /\
  Z.of_nat (Z.to_nat (modulus_bytes key)) = modulus_bytes key.
Proof.
  intro Hn. destruct (modulus_bytes_bounds key Hn) as [Hk _]. lia.
Qed.

(** Padding the shortest encoding of a residue of [n] to [k] bytes. *)
Lemma pad_residue (key : Key) (x : Z) :
  0 < n key -> 0 <= x < n key ->
  Str.mul [x00] (modulus_bytes key - Str.len (long_to_bytes x))
    ++ long_to_bytes x
  = I2OSP (Z.to_nat (modulus_bytes key)) x.
Proof.
  intros Hn Hx. destruct (modulus_bytes_nat key Hn) as [Hk Ek].
  destruct (modulus_bytes_bounds key Hn) as [_ [_ Hhi]].
  rewrite <- Ek at 1. apply EncodingFacts.pad_long_to_bytes; [exact Hk|].
  rewrite Ek. lia.
Qed.

Lemma RSA_construct_valid (modulus e : Z) (d : option Z) :
  0 < modulus -> valid_key (RSA_construct modulus e d).
Proof.
  intro Hn. unfold valid_key, RSA_construct. cbn. split; [exact Hn|]. split.
  - intro x. apply Z.mod_pos_bound, Hn.
  - intros f Hf x. destruct d as [d'|]; [|discriminate].
    inversion Hf. apply Z.mod_pos_bound, Hn.
Qed.

End KeyFacts.

(** ** The padding string *)

Section PaddingFacts.

Context {St : Type}.
Variable randFunc : Z -> St -> bytes * St.

Lemma nonZeroRandByte_nonzero (fuel : nat) :
  rand_contract randFunc ->
  forall c s c' s',
    length c = 1%nat ->
    nonZeroRandByte randFunc fuel c s = Some (c', s') ->
    nonzero_char c'.
Proof.
  intro Hc. induction fuel as [|fuel IH]; intros c s c' s' Hlen Hr;
    cbn [nonZeroRandByte] in Hr;
    destruct (Str.eqb c [x00]) eqn:E; try discriminate.
  - inversion Hr. subst c' s'. apply StrFacts.eqb_neq in E.
    destruct c as [|b [|? ?]]; try discriminate.
    exists b. split; [reflexivity | congruence].
  - destruct (randFunc 1 s) as [c1 s1] eqn:Er.
    apply (IH c1 s1 c' s'); [|exact Hr].
    pose proof (Hc 1 s) as H1. rewrite Er in H1. apply H1. lia.
  - inversion Hr. subst c' s'. apply StrFacts.eqb_neq in E.
    destruct c as [|b [|? ?]]; try discriminate.
    exists b. split; [reflexivity | congruence].
Qed.

Lemma map_nonZeroRandByte_nonzero (fuel : nat) :
  rand_contract randFunc ->
  forall raw s pss s',
    map_nonZeroRandByte randFunc fuel (Str.chars raw) s = Some (pss, s') ->
    length (Str.join pss) = length raw /\
    Forall (fun b => b <> x00) (Str.join pss).
Proof.
  intro Hc. induction raw as [|b raw IH]; intros s pss s' Hr.
  - cbn in Hr. inversion Hr. cbn. auto.
  - cbn [Str.chars map map_nonZeroRandByte] in Hr.
    destruct (nonZeroRandByte randFunc fuel [b] s) as [[c1 s1]|] eqn:E1;
      [|discriminate].
    fold (Str.chars raw) in Hr.
    destruct (map_nonZeroRandByte randFunc fuel (Str.chars raw) s1)
      as [[r s2]|] eqn:E2; [|discriminate].
    inversion Hr. subst pss s'.
    destruct (IH s1 r s2 E2) as [Hl Hf].
    destruct (nonZeroRandByte_nonzero fuel Hc [b] s c1 s1 eq_refl E1)
      as [b1 [-> Hb1]].
    unfold Str.join in *. cbn. split; [lia|]. constructor; assumption.
Qed.

Lemma nonZeroRandByte_mono (fuel fuel' : nat) :
  (fuel <= fuel')%nat ->
  forall c s r,
    nonZeroRandByte randFunc fuel c s = Some r ->
    nonZeroRandByte randFunc fuel' c s = Some r.
Proof.
  revert fuel'. induction fuel as [|fuel IH]; intros fuel' Hle c s r Hr.
  - cbn in Hr. destruct (Str.eqb c [x00]) eqn:E; [discriminate|].
    destruct fuel'; cbn; rewrite E; exact Hr.
  - destruct fuel' as [|fuel']; [lia|]. cbn in Hr |- *.
    destruct (Str.eqb c [x00]); [|exact Hr].
    destruct (randFunc 1 s) as [c1 s1]. apply IH; [lia | exact Hr].
Qed.

Lemma map_nonZeroRandByte_mono (fuel fuel' : nat) :
  (fuel <= fuel')%nat ->
  forall cs s r,
    map_nonZeroRandByte randFunc fuel cs s = Some r ->
    map_nonZeroRandByte randFunc fuel' cs s = Some r.
Proof.
  intro Hle. induction cs as [|c cs IH]; intros s r Hr; [exact Hr|].
  cbn [map_nonZeroRandByte] in Hr |- *.
  destruct (nonZeroRandByte randFunc fuel c s) as [[c1 s1]|] eqn:E1;
    [|discriminate].
  rewrite (nonZeroRandByte_mono fuel fuel' Hle c s _ E1).
  destruct (map_nonZeroRandByte randFunc fuel cs s1) as [[r1 s2]|] eqn:E2;
    [|discriminate].
  rewrite (IH s1 _ E2). exact Hr.
Qed.

Lemma redraw_total (s : St) :
  redraw_stops randFunc s ->
  exists fuel r, nonZeroRandByte randFunc fuel [x00] s = Some r.
Proof.
  induction 1 as [s Hnz | s _ [fuel [r Hr]]].
  - exists 1%nat. cbn. destruct (randFunc 1 s) as [c1 s1]. cbn in Hnz.
    rewrite Hnz. eauto.
  - destruct (randFunc 1 s) as [c1 s1] eqn:Er. cbn [snd] in Hr.
    destruct (Str.eqb c1 [x00]) eqn:E.
    + apply StrFacts.eqb_eq in E. subst c1.
      exists (S fuel), r. cbn [nonZeroRandByte Str.eqb].
      change (Byte.eqb x00 x00 && true) with true. cbv iota.
      rewrite Er. exact Hr.
    + exists 1%nat. cbn. rewrite Er, E. eauto.
Qed.

Lemma nonZeroRandByte_total :
  rand_productive randFunc ->
  forall c s, exists fuel r, nonZeroRandByte randFunc fuel c s = Some r.
Proof.
  intros Hp c s. destruct (Str.eqb c [x00]) eqn:E.
  - apply StrFacts.eqb_eq in E. subst c. apply redraw_total, Hp.
  - exists 0%nat. cbn. rewrite E. eauto.
Qed.

Lemma map_nonZeroRandByte_total :
  rand_productive randFunc ->
  forall cs s, exists fuel r, map_nonZeroRandByte randFunc fuel cs s = Some r.
Proof.
  intro Hp. induction cs as [|c cs IH]; intro s.
  - exists 0%nat. cbn. eauto.
  - destruct (nonZeroRandByte_total Hp c s) as [f1 [[c1 s1] H1]].
    destruct (IH s1) as [f2 [[r2 s2] H2]].
    exists (Nat.max f1 f2). cbn [map_nonZeroRandByte].
    rewrite (nonZeroRandByte_mono f1 _ (Nat.le_max_l f1 f2) c s _ H1).
    rewrite (map_nonZeroRandByte_mono f2 _ (Nat.le_max_r f1 f2) cs s1 _ H2).
    eauto.
Qed.

End PaddingFacts.

(** ** The encoded message *)

Module BlockFacts.
Import Number NumberFacts.

(** In a block laid out as the encoder does, the separator is the first
    0x00 byte at or after index 2. *)
Lemma layout_first_zero (ps message : bytes) :
  Forall (fun b => b <> x00) ps ->
  first_zero_from_2 ([x00; x02] ++ ps ++ [x00] ++ message) (2 + length ps).
Proof.
  intro Hnz. split; [lia|]. split.
  - cbn [app Nat.add nth_error]. rewrite nth_error_app2 by lia.
    rewrite Nat.sub_diag. reflexivity.
  - intros j Hj. destruct j as [|[|j]]; [lia | lia |].
    cbn [app nth_error]. rewrite nth_error_app1 by lia.
    intro Hz. apply nth_error_In in Hz.
    rewrite Forall_forall in Hnz. exact (Hnz x00 Hz eq_refl).
Qed.

Lemma layout_message (ps message : bytes) :
  skipn (S (2 + length ps)) ([x00; x02] ++ ps ++ [x00] ++ message) = message.
Proof.
  change (skipn (S (length ps)) (ps ++ [x00] ++ message) = message).
  rewrite skipn_app.
  rewrite skipn_all2 by lia.
  replace (S (length ps) - length ps)%nat with 1%nat by lia. reflexivity.
Qed.

Lemma layout_prefix (rest : bytes) : prefix_ok ([x00; x02] ++ rest).
Proof. split; reflexivity. Qed.

(** A block that starts 0x00 0x02 and has the length of the modulus
    encodes a residue of the modulus. *)
Lemma layout_value (key : Key) (rest : bytes) :
  0 < n key ->
  Str.len ([x00; x02] ++ rest) = modulus_bytes key ->
  0 <= bytes_to_long ([x00; x02] ++ rest) < n key.
Proof.
  intros Hn Hlen. pose proof (bytes_to_long_range ([x00; x02] ++ rest)) as Hr.
  split; [lia|]. clear Hr.
  destruct (KeyFacts.modulus_bytes_bounds key Hn) as [_ [Hlo _]].
  unfold Str.len in Hlen. cbn [app length] in Hlen.
  replace (modulus_bytes key - 1) with (Z.of_nat (S (length rest))) in Hlo
    by lia.
  rewrite pow256_succ in Hlo. cbn [app].
  rewrite !bytes_to_long_cons. cbn [length].
  pose proof (bytes_to_long_range rest) as Hr.
  change (byte_to_Z x00) with 0. change (byte_to_Z x02) with 2. lia.
Qed.

End BlockFacts.

Section EncodeFacts.

Context {St : Type}.
Variable randFunc : Z -> St -> bytes * St.

Lemma encode_layout (fuel : nat) (message : bytes) (key : Key) (s : St) :
  rand_contract randFunc ->
  forall em s',
    encode randFunc fuel message key s = Return (em, s') ->
    exists ps,
      em = [x00; x02] ++ ps ++ [x00] ++ message /\
      Str.len ps = modulus_bytes key - Str.len message - 3 /\
      Forall (fun b => b <> x00) ps /\
      Str.len em = modulus_bytes key.
Proof.
  intros Hc em s' Hr. unfold encode in Hr. fold (modulus_bytes key) in Hr.
  destruct (Str.len message >? modulus_bytes key - 11) eqn:Hgt;
    [discriminate|].
  assert (Hle : Str.len message <= modulus_bytes key - 11).
  { pose proof (Zgt_cases (Str.len message) (modulus_bytes key - 11)) as Hg.
    rewrite Hgt in Hg. exact Hg. }
  pose proof (Hc (modulus_bytes key - Str.len message - 3) s) as Hraw.
  destruct (randFunc (modulus_bytes key - Str.len message - 3) s)
    as [raw s1].
  cbn [fst] in Hraw.
  destruct (map_nonZeroRandByte randFunc fuel (Str.chars raw) s1)
    as [[pss s2]|] eqn:Em; [|discriminate].
  inversion Hr. subst em s'.
  destruct (map_nonZeroRandByte_nonzero randFunc fuel Hc raw s1 pss s2 Em)
    as [Hl Hnz].
  exists (Str.join pss). split; [reflexivity|].
  unfold Str.len in *. cbn [length]. rewrite !length_app. cbn [length].
  rewrite Hl, Hraw by lia. repeat split; [lia | exact Hnz | lia].
Qed.

Lemma encode_total (message : bytes) (key : Key) (s : St) :
  rand_productive randFunc ->
  Str.len message <= modulus_bytes key - 11 ->
  exists fuel0, forall fuel, (fuel0 <= fuel)%nat ->
    exists em s', encode randFunc fuel message key s = Return (em, s').
Proof.
  intros Hp Hle. unfold encode. fold (modulus_bytes key).
  destruct (Str.len message >? modulus_bytes key - 11) eqn:Hgt.
  - pose proof (Zgt_cases (Str.len message) (modulus_bytes key - 11)) as Hg.
    rewrite Hgt in Hg. lia.
  - destruct (randFunc (modulus_bytes key - Str.len message - 3) s)
      as [raw s1].
    destruct (map_nonZeroRandByte_total randFunc Hp (Str.chars raw) s1)
      as [fuel0 [[pss s2] Hm]].
    exists fuel0. intros fuel Hf.
    rewrite (map_nonZeroRandByte_mono randFunc fuel0 fuel Hf _ _ _ Hm).
    eauto.
Qed.

Lemma encrypt_inv (fuel : nat) (message : bytes) (key : Key) (s : St) :
  forall c s',
    encrypt randFunc fuel message key s = Return (c, s') ->
    exists em,
      encode randFunc fuel message key s = Return (em, s') /\
      c = Str.mul [x00] (modulus_bytes key - Str.len (key_encrypt key em))
            ++ key_encrypt key em.
Proof.
  intros c s' Hr. unfold encrypt in Hr.
  destruct (encode randFunc fuel message key s) as [[em s2]| |];
    try discriminate.
  inversion Hr. subst. exists em. auto.
Qed.

Lemma encrypt_of_encode (fuel : nat) (message : bytes) (key : Key) (s : St) :
  forall em s',
    encode randFunc fuel message key s = Return (em, s') ->
    encrypt randFunc fuel message key s
    = Return (Str.mul [x00] (modulus_bytes key - Str.len (key_encrypt key em))
                ++ key_encrypt key em, s').
Proof.
  intros em s' Hr. unfold encrypt. rewrite Hr. reflexivity.
Qed.

End EncodeFacts.

(** ** The decoder *)

Module DecodeFacts.
Import Number.

Lemma decode_private (ct : bytes) (key : Key) (f : Z -> Z) :
  privateTransform key = Some f ->
  Str.len ct = modulus_bytes key ->
  decode ct key
  = Return (Str.mul [x00]
              (modulus_bytes key
               - Str.len (long_to_bytes (f (bytes_to_long ct))))
              ++ long_to_bytes (f (bytes_to_long ct))).
Proof.
  intros Hf Hlen. unfold decode, key_decrypt. fold (modulus_bytes key).
  rewrite Hlen, Z.eqb_refl, Hf. reflexivity.
Qed.

Lemma decode_wrong_length (ct : bytes) (key : Key) :
  Str.len ct <> modulus_bytes key ->
  decode ct key = Raise (ValueError "Ciphertext with incorrect length.").
Proof.
  intro Hlen. unfold decode. fold (modulus_bytes key).
  apply Z.eqb_neq in Hlen. rewrite Hlen. reflexivity.
Qed.

Lemma decrypt_invalid (ct : bytes) (key : Key) (sentinel em : bytes) :
  decode ct key = Return em ->
  validation_fails em ->
  decrypt ct key sentinel = Return sentinel.
Proof.
  intros Hd Hv. unfold decrypt. rewrite Hd.
  apply StrFacts.validation_test in Hv. rewrite Hv. reflexivity.
Qed.

Lemma decrypt_valid (ct : bytes) (key : Key) (sentinel em : bytes) :
  decode ct key = Return em ->
  ~ validation_fails em ->
  exists sep,
    first_zero_from_2 em sep /\ (10 <= sep)%nat /\
    decrypt ct key sentinel = Return (skipn (S sep) em).
Proof.
  intros Hd Hv. unfold decrypt. rewrite Hd.
  rewrite <- StrFacts.validation_test in Hv.
  apply not_true_is_false in Hv. rewrite Hv.
  destruct (StrFacts.find_spec em) as [[Hm _] | [i [Hf Hz]]].
  - rewrite Hm in Hv. cbn in Hv. rewrite orb_true_r in Hv. discriminate.
  - exists i. rewrite Hf in Hv |- *. apply orb_false_iff in Hv.
    destruct Hv as [_ Hv]. apply Z.ltb_ge in Hv.
    split; [exact Hz|]. split; [lia|].
    replace (Z.of_nat i + 1) with (Z.of_nat (S i)) by lia.
    rewrite StrFacts.slice_from_nonneg. reflexivity.
Qed.

Lemma validation_fails_dec (em : bytes) :
  validation_fails em \/ ~ validation_fails em.
Proof.
  rewrite <- StrFacts.validation_test.
  destruct (negb (Str.startswith em [x00; x02]) || (Str.find em x00 2 <? 10));
    [left; reflexivity | right; discriminate].
Qed.

End DecodeFacts.

(** ** Blocks through the transforms *)

Module TransformFacts.
Import Number NumberFacts EncodingFacts.

Lemma valid_layout (ps message : bytes) :
  Forall (fun b => b <> x00) ps ->
  (8 <= length ps)%nat ->
  ~ validation_fails ([x00; x02] ++ ps ++ [x00] ++ message).
Proof.
  intros Hnz Hlen [Hp | [Hn | [i [Hz Hlt]]]].
  - apply Hp, BlockFacts.layout_prefix.
  - destruct (BlockFacts.layout_first_zero ps message Hnz) as [Hi [Hz _]].
    exact (Hn _ Hi Hz).
  - pose proof (BlockFacts.layout_first_zero ps message Hnz) as Hs.
    rewrite (StrFacts.first_zero_unique _ _ _ Hz Hs) in Hlt. lia.
Qed.

(** What [encrypt] returns for an encoded message [em]. *)
Lemma ciphertext_fixed_width (key : Key) (em : bytes) :
  valid_key key ->
  let x := publicTransform key (bytes_to_long em) in
  let c := Str.mul [x00] (modulus_bytes key - Str.len (key_encrypt key em))
             ++ key_encrypt key em in
  c = I2OSP (Z.to_nat (modulus_bytes key)) x /\
  Str.len c = modulus_bytes key /\
  bytes_to_long c = x.
Proof.
  intros [Hn [Hpub _]] x c. subst c. unfold key_encrypt. fold x.
  destruct (KeyFacts.modulus_bytes_nat key Hn) as [_ Ek].
  destruct (KeyFacts.modulus_bytes_bounds key Hn) as [_ [_ Hhi]].
  pose proof (Hpub (bytes_to_long em)) as Hx. fold x in Hx.
  rewrite KeyFacts.pad_residue by assumption.
  split; [reflexivity|]. split.
  - unfold Str.len. rewrite I2OSP_length. exact Ek.
  - apply bytes_to_long_I2OSP_small. rewrite Ek. lia.
Qed.

(** What [decode] rebuilds from a ciphertext of the right length. *)
Lemma block_fixed_width (key : Key) (f : Z -> Z) (ct : bytes) :
  valid_key key ->
  privateTransform key = Some f ->
  Str.len ct = modulus_bytes key ->
  let x := f (bytes_to_long ct) in
  let em := I2OSP (Z.to_nat (modulus_bytes key)) x in
  decode ct key = Return em /\
  Str.len em = modulus_bytes key /\
  bytes_to_long em = x.
Proof.
  intros [Hn [_ Hpriv]] Hf Hlen x em. subst em.
  destruct (KeyFacts.modulus_bytes_nat key Hn) as [_ Ek].
  destruct (KeyFacts.modulus_bytes_bounds key Hn) as [_ [_ Hhi]].
  pose proof (Hpriv f Hf (bytes_to_long ct)) as Hx. fold x in Hx.
  split; [|split].
  - rewrite (DecodeFacts.decode_private ct key f Hf Hlen). fold x.
    rewrite KeyFacts.pad_residue by assumption. reflexivity.
  - unfold Str.len. rewrite I2OSP_length. exact Ek.
  - apply bytes_to_long_I2OSP_small. rewrite Ek. lia.
Qed.

(** Decoding the ciphertext of an encoded message gives the message back
    when the private transform undoes the public one. *)
Lemma decode_ciphertext (key : Key) (em : bytes) :
  valid_key key ->
  private_inverts_public key ->
  Str.len em = modulus_bytes key ->
  0 <= bytes_to_long em < n key ->
  decode (Str.mul [x00] (modulus_bytes key - Str.len (key_encrypt key em))
            ++ key_encrypt key em) key
  = Return em.
Proof.
  intros Hv [f [Hf Hinv]] Hlen Hval.
  destruct (ciphertext_fixed_width key em Hv) as [_ [Hcl Hcv]].
  destruct (block_fixed_width key f _ Hv Hf Hcl) as [Hd _].
  rewrite Hd, Hcv, (Hinv _ Hval). f_equal.
  replace (Z.to_nat (modulus_bytes key)) with (length em)
    by (unfold Str.len in Hlen; lia).
  apply I2OSP_bytes_to_long.
Qed.

End TransformFacts.

(** ** The concrete collaborators meet their contracts *)

Lemma demo_key_valid : valid_key demo_key.
Proof.
  unfold valid_key, demo_key. cbn [n publicTransform privateTransform].
  assert (Hn : 0 < demo_modulus) by reflexivity.
  split; [exact Hn|]. split.
  - intro x. apply Z.mod_pos_bound, Hn.
  - intros f Hf x. inversion Hf. apply Z.mod_pos_bound, Hn.
Qed.

Lemma demo_key_inverts : private_inverts_public demo_key.
Proof.
  unfold private_inverts_public, demo_key.
  cbn [n publicTransform privateTransform].
  eexists. split; [reflexivity|]. intros x Hx. cbv beta.
  rewrite Zminus_mod_idemp_l. replace (x + 1 - 1) with x by lia.
  apply Z.mod_small, Hx.
Qed.

Lemma alternate_length (count : nat) (s : bool) :
  length (fst (alternate count s)) = count.
Proof.
  revert s. induction count as [|count IH]; intro s; [reflexivity|].
  cbn [alternate]. specialize (IH (negb s)).
  destruct (alternate count (negb s)) as [r s']. cbn in *. lia.
Qed.

Lemma demo_rand_contract : rand_contract demo_rand.
Proof. intros count s _. apply alternate_length. Qed.

Lemma demo_rand_productive : rand_productive demo_rand.
Proof.
  assert (Hf : redraw_stops demo_rand false)
    by (apply redraw_now; reflexivity).
  intros [|]; [|exact Hf]. apply redraw_later. exact Hf.
Qed.

(** ** Where the padding string comes from *)

Section PaddingSource.

Context {St : Type}.
Variable randFunc : Z -> St -> bytes * St.

Lemma nonZeroRandByte_redrawn (fuel : nat) :
  rand_contract randFunc ->
  forall s c' s',
    nonZeroRandByte randFunc fuel [x00] s = Some (c', s') ->
    exists b, c' = [b] /\ redrawn randFunc s b s'.
Proof.
  intro Hc. induction fuel as [|fuel IH]; intros s c' s' Hr.
  - cbn in Hr. discriminate.
  - cbn [nonZeroRandByte] in Hr.
    change (Str.eqb [x00] [x00]) with true in Hr. cbv iota in Hr.
    pose proof (Hc 1 s) as H1.
    destruct (randFunc 1 s) as [c1 s1] eqn:Er. cbn [fst] in H1.
    destruct c1 as [|b1 [|? ?]]; try (cbn in H1; lia).
    destruct (Byte.eqb b1 x00) eqn:E.
    + apply byte_eqb_eq in E. subst b1.
      destruct (IH s1 c' s' Hr) as [b [-> Hd]].
      exists b. split; [reflexivity|].
      exact (redrawn_next randFunc s s1 b s' Er Hd).
    + assert (Hk : nonZeroRandByte randFunc fuel [b1] s1 = Some ([b1], s1))
        by (destruct fuel; cbn; rewrite E; reflexivity).
      rewrite Hk in Hr. inversion Hr. subst c' s'.
      exists b1. split; [reflexivity|].
      apply redrawn_first; [exact Er | apply byte_eqb_neq, E].
Qed.

Lemma map_nonZeroRandByte_drawn (fuel : nat) :
  rand_contract randFunc ->
  forall raw s pss s',
    map_nonZeroRandByte randFunc fuel (Str.chars raw) s = Some (pss, s') ->
    padding_drawn randFunc raw s (Str.join pss) s'.
Proof.
  intro Hc. induction raw as [|b0 raw IH]; intros s pss s' Hr.
  - cbn in Hr. inversion Hr. constructor.
  - cbn [Str.chars map map_nonZeroRandByte] in Hr.
    destruct (nonZeroRandByte randFunc fuel [b0] s) as [[c1 s1]|] eqn:E1;
      [|discriminate].
    fold (Str.chars raw) in Hr.
    destruct (map_nonZeroRandByte randFunc fuel (Str.chars raw) s1)
      as [[r s2]|] eqn:E2; [|discriminate].
    inversion Hr. subst pss s'. specialize (IH s1 r s2 E2).
    destruct (Byte.eqb b0 x00) eqn:E.
    + apply byte_eqb_eq in E. subst b0.
      destruct (nonZeroRandByte_redrawn fuel Hc s c1 s1 E1) as [b [-> Hd]].
      exact (padding_redraw randFunc raw s s1 b (Str.join r) s2 Hd IH).
    + assert (Hk : nonZeroRandByte randFunc fuel [b0] s = Some ([b0], s))
        by (destruct fuel; cbn; rewrite E; reflexivity).
      rewrite Hk in E1. inversion E1. subst c1 s1.
      apply (padding_keep randFunc b0 raw s (Str.join r) s2);
        [apply byte_eqb_neq, E | exact IH].
Qed.

(** The draws determine the padding string and the final state. *)
Lemma redrawn_unique (s : St) (b b' : byte) (s' s'' : St) :
  redrawn randFunc s b s' -> redrawn randFunc s b' s'' ->
  b = b' /\ s' = s''.
Proof.
  intro H. revert b' s''.
  induction H as [s b s' Hr Hb | s s1 b s' Hr _ IH]; intros b' s'' H';
    inversion H' as [? ? ? Hr' Hb' | ? ? ? ? Hr' Hn']; subst;
    rewrite Hr in Hr'; inversion Hr'; subst.
  - split; reflexivity.
  - congruence.
  - congruence.
  - apply IH. assumption.
Qed.

Lemma padding_drawn_unique (raw : bytes) (s : St) (ps ps' : bytes)
    (s' s'' : St) :
  padding_drawn randFunc raw s ps s' ->
  padding_drawn randFunc raw s ps' s'' ->
  ps = ps' /\ s' = s''.
Proof.
  intro H. revert ps' s''.
  induction H as [s | b raw s ps s' Hb _ IH | raw s s1 b ps s' Hd _ IH];
    intros ps' s'' H'; inversion H'; subst; try congruence.
  - split; reflexivity.
  - destruct (IH _ _ ltac:(eassumption)) as [-> ->]. split; reflexivity.
  - match goal with
    | Hd' : redrawn _ _ _ _ |- _ =>
        destruct (redrawn_unique _ _ _ _ _ Hd Hd') as [-> ->]
    end.
    destruct (IH _ _ ltac:(eassumption)) as [-> ->]. split; reflexivity.
Qed.

(** The block of steps 1 to 2b, its padding string and the draws the
    padding string is made of. *)
Lemma encode_layout_source (fuel : nat) (message : bytes) (key : Key)
    (s : St) :
  rand_contract randFunc ->
  forall em s',
    encode randFunc fuel message key s = Return (em, s') ->
    exists ps,
      em = [x00; x02] ++ ps ++ [x00] ++ message /\
      Str.len ps = modulus_bytes key - Str.len message - 3 /\
      Forall (fun b => b <> x00) ps /\
      Str.len em = modulus_bytes key /\
      exists raw s1,
        randFunc (modulus_bytes key - Str.len message - 3) s = (raw, s1) /\
        padding_drawn randFunc raw s1 ps s'.
Proof.
  intros Hc em s' Hr. unfold encode in Hr. fold (modulus_bytes key) in Hr.
  destruct (Str.len message >? modulus_bytes key - 11) eqn:Hgt;
    [discriminate|].
  assert (Hle : Str.len message <= modulus_bytes key - 11).
  { pose proof (Zgt_cases (Str.len message) (modulus_bytes key - 11)) as Hg.
    rewrite Hgt in Hg. exact Hg. }
  pose proof (Hc (modulus_bytes key - Str.len message - 3) s) as Hraw.
  destruct (randFunc (modulus_bytes key - Str.len message - 3) s)
    as [raw s1].
  cbn [fst] in Hraw.
  destruct (map_nonZeroRandByte randFunc fuel (Str.chars raw) s1)
    as [[pss s2]|] eqn:Em; [|discriminate].
  inversion Hr. subst em s'.
  destruct (map_nonZeroRandByte_nonzero randFunc fuel Hc raw s1 pss s2 Em)
    as [Hl Hnz].
  pose proof (map_nonZeroRandByte_drawn fuel Hc raw s1 pss s2 Em) as Hd.
  exists (Str.join pss). split; [reflexivity|].
  unfold Str.len in *. cbn [length]. rewrite !length_app. cbn [length].
  rewrite Hl, Hraw by lia.
  split; [lia|]. split; [exact Hnz|]. split; [lia|].
  exists raw, s1. split; [reflexivity | exact Hd].
Qed.

End PaddingSource.

(** ** Properties of [encrypt] *)

(** C3: for a message of at most [k - 11] bytes, the block that [encrypt]
    hands to the public transform is [k] bytes long and reads 0x00, 0x02,
    a padding string of exactly [k - mLen - 3] bytes none of which is 0x00,
    one 0x00 separator, then the message.  The padding string is read off
    the random source: it is the first draw of [k - mLen - 3] bytes in which
    every 0x00 byte has been replaced by single-byte redraws, the 0x00
    redraws being rejected and the first other byte kept, and the source is
    left in the state after the last redraw.  With a productive random
    source the block is produced once the redraw loop has fuel enough. *)
Theorem encode_block_layout {St : Type} (randFunc : Z -> St -> bytes * St)
    (message : bytes) (key : Key) (s : St) :
  rand_contract randFunc ->
  rand_productive randFunc ->
  Str.len message <= modulus_bytes key - 11 ->
  (forall fuel em s',
      encode randFunc fuel message key s = Return (em, s') ->
      (exists ps,
          em = [x00; x02] ++ ps ++ [x00] ++ message /\
          Str.len ps = modulus_bytes key - Str.len message - 3 /\
          Forall (fun b => b <> x00) ps /\
          Str.len em = modulus_bytes key /\
          exists raw s1,
            randFunc (modulus_bytes key - Str.len message - 3) s
            = (raw, s1) /\
            padding_drawn randFunc raw s1 ps s') /\
      encrypt randFunc fuel message key s
      = Return (Str.mul [x00]
                  (modulus_bytes key - Str.len (key_encrypt key em))
                  ++ key_encrypt key em, s')) /\
  (exists fuel0, forall fuel, (fuel0 <= fuel)%nat ->
      exists em s', encode randFunc fuel message key s = Return (em, s')).
Proof.
  intros Hc Hp Hle. split.
  - intros fuel em s' He. split.
    + exact (encode_layout_source randFunc fuel message key s Hc em s' He).
    + exact (encrypt_of_encode randFunc fuel message key s em s' He).
  - exact (encode_total randFunc message key s Hp Hle).
Qed.

Lemma encode_block_layout_witness :
  (forall fuel em s',
      encode demo_rand fuel demo_message demo_key true = Return (em, s') ->
      (exists ps,
          em = [x00; x02] ++ ps ++ [x00] ++ demo_message /\
          Str.len ps = modulus_bytes demo_key - Str.len demo_message - 3 /\
          Forall (fun b => b <> x00) ps /\
          Str.len em = modulus_bytes demo_key /\
          exists raw s1,
            demo_rand (modulus_bytes demo_key - Str.len demo_message - 3)
              true
            = (raw, s1) /\
            padding_drawn demo_rand raw s1 ps s') /\
      encrypt demo_rand fuel demo_message demo_key true
      = Return (Str.mul [x00]
                  (modulus_bytes demo_key
                   - Str.len (key_encrypt demo_key em))
                  ++ key_encrypt demo_key em, s')) /\
  (exists fuel0, forall fuel, (fuel0 <= fuel)%nat ->
      exists em s',
        encode demo_rand fuel demo_message demo_key true = Return (em, s')).
Proof.
  apply (encode_block_layout demo_rand demo_message demo_key true).
  - exact demo_rand_contract.
  - exact demo_rand_productive.
  - vm_compute. discriminate.
Defined.

(** C7: for a message of at most [k - 11] bytes, what [encrypt] returns is
    exactly [k] bytes: the big-endian encoding of the result of the public
    transform, left-padded with 0x00 bytes to the width [k]; and with a
    productive random source [encrypt] returns once the redraw loop has
    fuel enough. *)
Theorem encrypt_fixed_length {St : Type} (randFunc : Z -> St -> bytes * St)
    (message : bytes) (key : Key) (s : St) :
  valid_key key ->
  rand_productive randFunc ->
  Str.len message <= modulus_bytes key - 11 ->
  (forall fuel c s',
      encrypt randFunc fuel message key s = Return (c, s') ->
      Str.len c = modulus_bytes key /\
      exists em,
        encode randFunc fuel message key s = Return (em, s') /\
        let x := publicTransform key (Number.bytes_to_long em) in
        c = I2OSP (Z.to_nat (modulus_bytes key)) x /\
        c = repeat x00
              (Z.to_nat (modulus_bytes key
                         - Str.len (Number.long_to_bytes x)))
              ++ Number.long_to_bytes x /\
        Number.bytes_to_long c = x) /\
  (exists fuel0, forall fuel, (fuel0 <= fuel)%nat ->
      exists c s',
        encrypt randFunc fuel message key s = Return (c, s') /\
        Str.len c = modulus_bytes key).
Proof.
  intros Hv Hp Hle.
  assert (Hpart : forall fuel c s',
             encrypt randFunc fuel message key s = Return (c, s') ->
             Str.len c = modulus_bytes key /\
             exists em,
               encode randFunc fuel message key s = Return (em, s') /\
               let x := publicTransform key (Number.bytes_to_long em) in
               c = I2OSP (Z.to_nat (modulus_bytes key)) x /\
               c = repeat x00
                     (Z.to_nat (modulus_bytes key
                                - Str.len (Number.long_to_bytes x)))
                     ++ Number.long_to_bytes x /\
               Number.bytes_to_long c = x).
  { intros fuel c s' He.
    destruct (encrypt_inv randFunc fuel message key s c s' He)
      as [em [Hen Hceq]].
    destruct (TransformFacts.ciphertext_fixed_width key em Hv)
      as [Hfix [Hlen Hval]].
    rewrite <- Hceq in Hfix, Hlen, Hval.
    split; [exact Hlen|]. exists em. split; [exact Hen|]. cbv zeta.
    split; [exact Hfix|]. split; [|exact Hval].
    rewrite Hceq. unfold key_encrypt.
    rewrite EncodingFacts.str_mul_zero. reflexivity. }
  split; [exact Hpart|].
  destruct (encode_total randFunc message key s Hp Hle) as [fuel0 Ht].
  exists fuel0. intros fuel Hf. destruct (Ht fuel Hf) as [em [s' Hen]].
  pose proof (encrypt_of_encode randFunc fuel message key s em s' Hen) as He.
  eexists. exists s'. split; [exact He|].
  exact (proj1 (Hpart fuel _ s' He)).
Qed.

Lemma encrypt_fixed_length_witness :
  (exists fuel0, forall fuel, (fuel0 <= fuel)%nat ->
      exists c s',
        encrypt demo_rand fuel demo_message demo_key true = Return (c, s') /\
        Str.len c = modulus_bytes demo_key).
Proof.
  apply (encrypt_fixed_length demo_rand demo_message demo_key true).
  - exact demo_key_valid.
  - exact demo_rand_productive.
  - vm_compute. discriminate.
Defined.

(** C1: with a key whose private transform inverts its public transform,
    a random source meeting its contract and a message of at most [k - 11]
    bytes (empty, or holding 0x00 bytes, included), [decrypt] applied to
    what [encrypt] returns gives the message back, whatever the sentinel;
    and [encrypt] does return once the redraw loop has fuel enough. *)
Theorem encrypt_decrypt_roundtrip {St : Type}
    (randFunc : Z -> St -> bytes * St)
    (message sentinel : bytes) (key : Key) (s : St) :
  valid_key key ->
  private_inverts_public key ->
  rand_contract randFunc ->
  rand_productive randFunc ->
  Str.len message <= modulus_bytes key - 11 ->
  (forall fuel c s',
      encrypt randFunc fuel message key s = Return (c, s') ->
      decrypt c key sentinel = Return message) /\
  (exists fuel0, forall fuel, (fuel0 <= fuel)%nat ->
      exists c s',
        encrypt randFunc fuel message key s = Return (c, s') /\
        decrypt c key sentinel = Return message).
Proof.
  intros Hv Hinv Hc Hp Hle.
  assert (Hpart : forall fuel c s',
             encrypt randFunc fuel message key s = Return (c, s') ->
             decrypt c key sentinel = Return message).
  { intros fuel c s' He.
    destruct (encrypt_inv randFunc fuel message key s c s' He)
      as [em [Hen Hceq]].
    destruct (encode_layout randFunc fuel message key s Hc em s' Hen)
      as [ps [Hem [Hps [Hnz Hlen]]]].
    assert (Hval : 0 <= Number.bytes_to_long em < n key).
    { rewrite Hem. apply BlockFacts.layout_value; [exact (proj1 Hv)|].
      rewrite <- Hem. exact Hlen. }
    pose proof (TransformFacts.decode_ciphertext key em Hv Hinv Hlen Hval)
      as Hd.
    rewrite <- Hceq in Hd.
    assert (Hok : ~ validation_fails em).
    { rewrite Hem. apply TransformFacts.valid_layout; [exact Hnz|].
      unfold Str.len in Hps. pose proof (Nat2Z.is_nonneg (length message)).
      unfold Str.len in Hle. lia. }
    destruct (DecodeFacts.decrypt_valid c key sentinel em Hd Hok)
      as [sep [Hz [_ Hr]]].
    rewrite Hr.
    pose proof (BlockFacts.layout_first_zero ps message Hnz) as Hs.
    rewrite <- Hem in Hs.
    rewrite (StrFacts.first_zero_unique em _ _ Hz Hs), Hem.
    rewrite BlockFacts.layout_message. reflexivity. }
  split; [exact Hpart|].
  destruct (encode_total randFunc message key s Hp Hle) as [fuel0 Ht].
  exists fuel0. intros fuel Hf. destruct (Ht fuel Hf) as [em [s' Hen]].
  pose proof (encrypt_of_encode randFunc fuel message key s em s' Hen) as He.
  eexists. exists s'. split; [exact He|].
  exact (Hpart fuel _ s' He).
Qed.

Lemma encrypt_decrypt_roundtrip_witness :
  exists fuel0, forall fuel, (fuel0 <= fuel)%nat ->
    exists c s',
      encrypt demo_rand fuel demo_message demo_key true = Return (c, s') /\
      decrypt c demo_key demo_sentinel = Return demo_message.
Proof.
  apply (encrypt_decrypt_roundtrip
           demo_rand demo_message demo_sentinel demo_key true).
  - exact demo_key_valid.
  - exact demo_key_inverts.
  - exact demo_rand_contract.
  - exact demo_rand_productive.
  - vm_compute. discriminate.
Defined.

(** C5: [encrypt] raises its "Plaintext is too long." [ValueError] exactly
    when the message is longer than [k - 11] bytes, [k] being the bit length
    of the modulus divided by 8 and rounded up; a message of [k - 10] bytes
    is refused, and a message within the limit raises nothing. *)
Theorem encrypt_message_too_long {St : Type}
    (randFunc : Z -> St -> bytes * St)
    (fuel : nat) (message : bytes) (key : Key) (s : St) :
  let k := modulus_bytes key in
  let too_long := Raise (ValueError "Plaintext is too long.") in
  8 * (k - 1) < Number.size (n key) <= 8 * k /\
  (encrypt randFunc fuel message key s = too_long
   <-> Str.len message > k - 11) /\
  (Str.len message = k - 10 ->
   encrypt randFunc fuel message key s = too_long) /\
  (Str.len message <= k - 11 ->
   forall e, encrypt randFunc fuel message key s <> Raise e).
Proof.
  intros k too_long.
  assert (Hgt : Str.len message > k - 11 ->
                encrypt randFunc fuel message key s = too_long).
  { intro H. unfold encrypt, encode. fold (modulus_bytes key). fold k.
    destruct (Str.len message >? k - 11) eqn:E; [reflexivity|].
    pose proof (Zgt_cases (Str.len message) (k - 11)) as Hg.
    rewrite E in Hg. lia. }
  assert (Hle : Str.len message <= k - 11 ->
                forall e, encrypt randFunc fuel message key s <> Raise e).
  { intros H e. unfold encrypt, encode. fold (modulus_bytes key). fold k.
    destruct (Str.len message >? k - 11) eqn:E.
    - pose proof (Zgt_cases (Str.len message) (k - 11)) as Hg.
      rewrite E in Hg. lia.
    - destruct (randFunc (k - Str.len message - 3) s) as [raw s1].
      destruct (map_nonZeroRandByte randFunc fuel (Str.chars raw) s1)
        as [[pss s2]|]; discriminate. }
  split; [|split; [|split]].
  - subst k. unfold modulus_bytes, Number.ceil_div.
    destruct (Number.size (n key) mod 8 =? 0) eqn:Em.
    + apply Z.eqb_eq in Em. Z.div_mod_to_equations. lia.
    + apply Z.eqb_neq in Em. Z.div_mod_to_equations. lia.
  - split; [|exact Hgt]. intro He.
    destruct (Z_gt_le_dec (Str.len message) (k - 11)) as [H | H];
      [exact H|].
    exfalso. exact (Hle H _ He).
  - intro H. apply Hgt. lia.
  - exact Hle.
Qed.

Lemma encrypt_message_too_long_witness :
  encrypt demo_rand 2 long_message demo_key true
  = Raise (ValueError "Plaintext is too long.").
Proof.
  apply (encrypt_message_too_long demo_rand 2 long_message demo_key true).
  reflexivity.
Defined.

(** ** Properties of [decrypt] *)

(** C6: [decrypt] raises its "Ciphertext with incorrect length."
    [ValueError] exactly when the ciphertext is not [k] bytes long; a
    ciphertext of [k - 1] bytes is refused; and the refusal is an exception,
    not a returned value. *)
Theorem decrypt_invalid_length (ct sentinel : bytes) (key : Key) :
  let k := modulus_bytes key in
  let bad_length :=
    Raise (ValueError "Ciphertext with incorrect length.") in
  (decrypt ct key sentinel = bad_length <-> Str.len ct <> k) /\
  (Str.len ct = k - 1 -> decrypt ct key sentinel = bad_length) /\
  (Str.len ct <> k -> forall r, decrypt ct key sentinel <> Return r).
Proof.
  intros k bad_length.
  assert (Hne : Str.len ct <> k -> decrypt ct key sentinel = bad_length).
  { intro H. unfold decrypt.
    rewrite (DecodeFacts.decode_wrong_length ct key H). reflexivity. }
  split; [|split].
  - split; [|exact Hne]. intros Hd Hlen. unfold decrypt, decode in Hd.
    fold (modulus_bytes key) in Hd. fold k in Hd.
    rewrite Hlen, Z.eqb_refl in Hd. cbn [negb] in Hd.
    unfold key_decrypt in Hd.
    destruct (privateTransform key) as [f|]; [|discriminate].
    match type of Hd with
    | (if ?b then _ else _) = _ => destruct b; discriminate
    end.
  - intro H. apply Hne. lia.
  - intros H r. rewrite (Hne H). discriminate.
Qed.

Lemma decrypt_invalid_length_witness :
  decrypt short_ciphertext demo_key demo_sentinel
  = Raise (ValueError "Ciphertext with incorrect length.").
Proof.
  apply (decrypt_invalid_length short_ciphertext demo_sentinel demo_key).
  reflexivity.
Defined.

(** C10: the length check comes before the private transform: a
    ciphertext that is not [k] bytes long raises the length error whatever
    the key, a key without its private half included; so the [TypeError] of
    a missing private half only arises for a ciphertext of exactly [k]
    bytes. *)
Theorem length_check_before_private_transform
    (ct sentinel : bytes) (key : Key) :
  (Str.len ct <> modulus_bytes key ->
   decrypt ct key sentinel
   = Raise (ValueError "Ciphertext with incorrect length.")) /\
  (privateTransform key = None ->
   Str.len ct <> modulus_bytes key ->
   decrypt ct key sentinel
   = Raise (ValueError "Ciphertext with incorrect length.")) /\
  (forall msg,
      decrypt ct key sentinel = Raise (TypeError msg) ->
      Str.len ct = modulus_bytes key /\ privateTransform key = None).
Proof.
  assert (Hne : Str.len ct <> modulus_bytes key ->
                decrypt ct key sentinel
                = Raise (ValueError "Ciphertext with incorrect length.")).
  { intro H. unfold decrypt.
    rewrite (DecodeFacts.decode_wrong_length ct key H). reflexivity. }
  split; [exact Hne|]. split; [intros _; exact Hne|].
  intros msg Hd.
  destruct (Z.eq_dec (Str.len ct) (modulus_bytes key)) as [Hlen | Hlen].
  - split; [exact Hlen|].
    destruct (privateTransform key) as [f|] eqn:Hf; [|reflexivity].
    unfold decrypt in Hd.
    rewrite (DecodeFacts.decode_private ct key f Hf Hlen) in Hd.
    match type of Hd with
    | (if ?b then _ else _) = _ => destruct b; discriminate
    end.
  - rewrite (Hne Hlen) in Hd. discriminate.
Qed.

Lemma length_check_before_private_transform_witness :
  decrypt short_ciphertext demo_public_key demo_sentinel
  = Raise (ValueError "Ciphertext with incorrect length.").
Proof.
  apply (length_check_before_private_transform
           short_ciphertext demo_sentinel demo_public_key).
  - reflexivity.
  - vm_compute. discriminate.
Defined.

(** C8, as stated, fails: with a ciphertext of the wrong length a key
    without its private half gets the length error, not the [TypeError]. *)
Lemma no_private_key_counterexample :
  ~ (forall (ct sentinel : bytes) (key : Key),
        privateTransform key = None ->
        exists msg, decrypt ct key sentinel = Raise (TypeError msg)).
Proof.
  intro H.
  destruct (H short_ciphertext demo_sentinel demo_public_key eq_refl)
    as [msg Hd].
  vm_compute in Hd. discriminate.
Qed.

(** C8, amended: with a ciphertext of exactly [k] bytes, [decrypt] called
    with a key that has no private half raises the [TypeError] of the
    missing private key, which is neither a return of the sentinel nor the
    length error; with a ciphertext of any other length it raises the
    length error instead. *)
Theorem decrypt_no_private_key (ct sentinel : bytes) (key : Key) :
  privateTransform key = None ->
  (Str.len ct = modulus_bytes key ->
   decrypt ct key sentinel = Raise (TypeError "No private key") /\
   decrypt ct key sentinel <> Return sentinel /\
   decrypt ct key sentinel
   <> Raise (ValueError "Ciphertext with incorrect length.")) /\
  (Str.len ct <> modulus_bytes key ->
   decrypt ct key sentinel
   = Raise (ValueError "Ciphertext with incorrect length.")).
Proof.
  intro Hf. split.
  - intro Hlen.
    assert (Hd : decrypt ct key sentinel
                 = Raise (TypeError "No private key")).
    { unfold decrypt, decode, key_decrypt. fold (modulus_bytes key).
      rewrite Hlen, Z.eqb_refl, Hf. reflexivity. }
    rewrite Hd. repeat split; discriminate.
  - intro Hlen. unfold decrypt.
    rewrite (DecodeFacts.decode_wrong_length ct key Hlen). reflexivity.
Qed.

Lemma decrypt_no_private_key_witness :
  decrypt coincident_ciphertext demo_public_key demo_sentinel
  = Raise (TypeError "No private key") /\
  decrypt coincident_ciphertext demo_public_key demo_sentinel
  <> Return demo_sentinel /\
  decrypt coincident_ciphertext demo_public_key demo_sentinel
  <> Raise (ValueError "Ciphertext with incorrect length.").
Proof.
  apply (proj1 (decrypt_no_private_key
                  coincident_ciphertext demo_sentinel demo_public_key
                  eq_refl)).
  reflexivity.
Defined.

(** C4: for a ciphertext of [k] bytes, the block that [decrypt] validates
    is the big-endian encoding of the result of the private transform on
    exactly [k] bytes, the shortest encoding left-padded with 0x00 bytes
    however short it is; and when the block passes validation [decrypt]
    returns every byte after the first 0x00 byte found at or after
    index 2. *)
Theorem decrypt_block_and_message (ct sentinel : bytes) (key : Key)
    (f : Z -> Z) :
  valid_key key ->
  privateTransform key = Some f ->
  Str.len ct = modulus_bytes key ->
  let x := f (Number.bytes_to_long ct) in
  let em := I2OSP (Z.to_nat (modulus_bytes key)) x in
  decode ct key = Return em /\
  em = repeat x00
         (Z.to_nat (modulus_bytes key - Str.len (Number.long_to_bytes x)))
         ++ Number.long_to_bytes x /\
  Str.len em = modulus_bytes key /\
  Number.bytes_to_long em = x /\
  (~ validation_fails em ->
   exists sep,
     first_zero_from_2 em sep /\
     decrypt ct key sentinel = Return (skipn (S sep) em)).
Proof.
  intros Hv Hf Hlen x em.
  destruct (TransformFacts.block_fixed_width key f ct Hv Hf Hlen)
    as [Hd [Hl Hx]].
  fold x in Hd, Hl, Hx. fold em in Hd, Hl, Hx.
  split; [exact Hd|]. split; [|split; [exact Hl|split; [exact Hx|]]].
  - pose proof (DecodeFacts.decode_private ct key f Hf Hlen) as Hd'.
    fold x in Hd'. rewrite Hd in Hd'. inversion Hd' as [He].
    rewrite <- EncodingFacts.str_mul_zero. exact He.
  - intro Hok.
    destruct (DecodeFacts.decrypt_valid ct key sentinel em Hd Hok)
      as [sep [Hz [_ Hr]]].
    exists sep. split; assumption.
Qed.

Lemma decrypt_block_and_message_witness :
  decode small_ciphertext demo_key = Return (repeat x00 16).
Proof.
  apply (decrypt_block_and_message
           small_ciphertext demo_sentinel demo_key
           (fun c => (c - 1) mod demo_modulus)).
  - exact demo_key_valid.
  - reflexivity.
  - reflexivity.
Defined.

(** C2, as stated, fails in the direction from the returned value to the
    validation: a block that passes validation and carries the sentinel as
    its message makes [decrypt] return the sentinel too. *)
Lemma sentinel_iff_counterexample :
  ~ (forall (ct sentinel em : bytes) (key : Key),
        Str.len ct = modulus_bytes key ->
        decode ct key = Return em ->
        (decrypt ct key sentinel = Return sentinel <-> validation_fails em)).
Proof.
  intro H.
  assert (Hlen : Str.len coincident_ciphertext = modulus_bytes demo_key)
    by reflexivity.
  assert (Hd : decode coincident_ciphertext demo_key
               = Return coincident_block) by (vm_compute; reflexivity).
  destruct (H coincident_ciphertext demo_sentinel coincident_block demo_key
              Hlen Hd) as [Hfail _].
  assert (Hr : decrypt coincident_ciphertext demo_key demo_sentinel
               = Return demo_sentinel) by (vm_compute; reflexivity).
  apply Hfail in Hr. apply StrFacts.validation_test in Hr.
  vm_compute in Hr. discriminate.
Qed.

(** C2, amended: for a key with its private half and a ciphertext of [k]
    bytes, [decrypt] never raises; it returns exactly the sentinel when the
    re-encoded block fails validation (its first two bytes are not
    0x00 0x02, or it has no 0x00 byte at index 2 or later, or the first
    such byte is before index 10), so for a block starting 0x00 0x03 and
    for a block with the separator at index 2; and the value it returns
    equals the sentinel exactly when validation fails or the bytes after
    the separator are themselves the sentinel. *)
Theorem decrypt_sentinel_on_invalid_block (ct sentinel : bytes) (key : Key)
    (f : Z -> Z) :
  privateTransform key = Some f ->
  Str.len ct = modulus_bytes key ->
  exists em,
    decode ct key = Return em /\
    (valid_key key -> Str.len em = modulus_bytes key) /\
    (exists r, decrypt ct key sentinel = Return r) /\
    (validation_fails em -> decrypt ct key sentinel = Return sentinel) /\
    (decrypt ct key sentinel = Return sentinel <->
     validation_fails em \/
     exists sep, first_zero_from_2 em sep /\ skipn (S sep) em = sentinel) /\
    (nth_error em 0 = Some x00 -> nth_error em 1 = Some x03 ->
     decrypt ct key sentinel = Return sentinel) /\
    (prefix_ok em -> nth_error em 2 = Some x00 ->
     decrypt ct key sentinel = Return sentinel).
Proof.
  intros Hf Hlen.
  pose proof (DecodeFacts.decode_private ct key f Hf Hlen) as Hd.
  eexists. split; [exact Hd|].
  set (em := Str.mul [x00] _ ++ _) in *.
  assert (Hbad : validation_fails em ->
                 decrypt ct key sentinel = Return sentinel)
    by exact (DecodeFacts.decrypt_invalid ct key sentinel em Hd).
  split; [|split; [|split; [exact Hbad|split; [|split]]]].
  - intro Hv.
    destruct (TransformFacts.block_fixed_width key f ct Hv Hf Hlen)
      as [Hd' [Hl _]].
    rewrite Hd in Hd'. inversion Hd' as [He]. rewrite He. exact Hl.
  - destruct (DecodeFacts.validation_fails_dec em) as [Hv | Hv].
    + exists sentinel. exact (Hbad Hv).
    + destruct (DecodeFacts.decrypt_valid ct key sentinel em Hd Hv)
        as [sep [_ [_ Hr]]].
      eexists. exact Hr.
  - split.
    + intro Hr. destruct (DecodeFacts.validation_fails_dec em) as [Hv | Hv];
        [left; exact Hv|]. right.
      destruct (DecodeFacts.decrypt_valid ct key sentinel em Hd Hv)
        as [sep [Hz [_ Hr']]].
      exists sep. split; [exact Hz|]. congruence.
    + intros [Hv | [sep [Hz Hs]]]; [exact (Hbad Hv)|].
      destruct (DecodeFacts.validation_fails_dec em) as [Hv | Hv];
        [exact (Hbad Hv)|].
      destruct (DecodeFacts.decrypt_valid ct key sentinel em Hd Hv)
        as [sep' [Hz' [_ Hr']]].
      rewrite Hr', (StrFacts.first_zero_unique em _ _ Hz' Hz), Hs.
      reflexivity.
  - intros _ H3. apply Hbad. left. intros [_ H2]. congruence.
  - intros Hp H2. apply Hbad. right. right. exists 2%nat.
    split; [|lia]. split; [lia|]. split; [exact H2|]. intros j Hj. lia.
Qed.

Lemma decrypt_sentinel_on_invalid_block_witness :
  exists em,
    decode malformed_ciphertext demo_key = Return em /\
    (valid_key demo_key -> Str.len em = modulus_bytes demo_key) /\
    (exists r, decrypt malformed_ciphertext demo_key demo_sentinel
               = Return r) /\
    (validation_fails em ->
     decrypt malformed_ciphertext demo_key demo_sentinel
     = Return demo_sentinel) /\
    (decrypt malformed_ciphertext demo_key demo_sentinel
     = Return demo_sentinel <->
     validation_fails em \/
     exists sep,
       first_zero_from_2 em sep /\ skipn (S sep) em = demo_sentinel) /\
    (nth_error em 0 = Some x00 -> nth_error em 1 = Some x03 ->
     decrypt malformed_ciphertext demo_key demo_sentinel
     = Return demo_sentinel) /\
    (prefix_ok em -> nth_error em 2 = Some x00 ->
     decrypt malformed_ciphertext demo_key demo_sentinel
     = Return demo_sentinel).
Proof.
  apply (decrypt_sentinel_on_invalid_block
           malformed_ciphertext demo_sentinel demo_key
           (fun c => (c - 1) mod demo_modulus)).
  - reflexivity.
  - reflexivity.
Defined.

(** ** Further properties of the padding string *)

Section PaddingDraws.

Context {St : Type}.
Variable randFunc : Z -> St -> bytes * St.

Lemma join_chars (raw : bytes) : Str.join (Str.chars raw) = raw.
Proof.
  unfold Str.join, Str.chars.
  induction raw as [|b raw IH]; [reflexivity|]. cbn. rewrite IH. reflexivity.
Qed.

Lemma nonZeroRandByte_keeps (fuel : nat) (b : byte) (s : St) :
  b <> x00 -> nonZeroRandByte randFunc fuel [b] s = Some ([b], s).
Proof.
  intro Hb. apply byte_eqb_neq in Hb.
  destruct fuel; cbn; rewrite Hb; reflexivity.
Qed.

Lemma map_nonZeroRandByte_keeps (fuel : nat) (raw : bytes) (s : St) :
  Forall (fun b => b <> x00) raw ->
  map_nonZeroRandByte randFunc fuel (Str.chars raw) s
  = Some (Str.chars raw, s).
Proof.
  induction 1 as [|b raw Hb _ IH]; [reflexivity|].
  cbn [Str.chars map map_nonZeroRandByte].
  rewrite (nonZeroRandByte_keeps fuel b s Hb).
  fold (Str.chars raw). rewrite IH. reflexivity.
Qed.

Lemma map_nonZeroRandByte_positions (fuel : nat) :
  rand_contract randFunc ->
  forall raw s pss s',
    map_nonZeroRandByte randFunc fuel (Str.chars raw) s = Some (pss, s') ->
    forall i b,
      nth_error raw i = Some b -> b <> x00 ->
      nth_error (Str.join pss) i = Some b.
Proof.
  intro Hc. induction raw as [|b0 raw IH]; intros s pss s' Hr i b Hi Hb.
  - destruct i; discriminate.
  - cbn [Str.chars map map_nonZeroRandByte] in Hr.
    destruct (nonZeroRandByte randFunc fuel [b0] s) as [[c1 s1]|] eqn:E1;
      [|discriminate].
    fold (Str.chars raw) in Hr.
    destruct (map_nonZeroRandByte randFunc fuel (Str.chars raw) s1)
      as [[r s2]|] eqn:E2; [|discriminate].
    inversion Hr. subst pss s'.
    destruct (nonZeroRandByte_nonzero randFunc fuel Hc [b0] s c1 s1
                eq_refl E1) as [b1 [-> Hb1]].
    unfold Str.join. cbn [concat app]. destruct i as [|i].
    + cbn in Hi. inversion Hi. subst b0.
      rewrite (nonZeroRandByte_keeps fuel b s Hb) in E1.
      inversion E1. reflexivity.
    + cbn [nth_error] in Hi |- *. exact (IH s1 r s2 E2 i b Hi Hb).
Qed.

End PaddingDraws.

(** X1: when the first draw of [k - mLen - 3] bytes holds no 0x00 byte,
    the padding string is that draw itself and the random source is not
    called again: the redraw loop needs no fuel and the state is the one
    left by the first draw. *)
Theorem encode_keeps_zero_free_draw {St : Type}
    (randFunc : Z -> St -> bytes * St)
    (fuel : nat) (message raw : bytes) (key : Key) (s s1 : St) :
  Str.len message <= modulus_bytes key - 11 ->
  randFunc (modulus_bytes key - Str.len message - 3) s = (raw, s1) ->
  Forall (fun b => b <> x00) raw ->
  encode randFunc fuel message key s
  = Return ([x00; x02] ++ raw ++ [x00] ++ message, s1).
Proof.
  intros Hle Hraw Hnz. unfold encode. fold (modulus_bytes key).
  destruct (Str.len message >? modulus_bytes key - 11) eqn:Hgt.
  - pose proof (Zgt_cases (Str.len message) (modulus_bytes key - 11)) as Hg.
    rewrite Hgt in Hg. lia.
  - rewrite Hraw, (map_nonZeroRandByte_keeps randFunc fuel raw s1 Hnz).
    rewrite join_chars. reflexivity.
Qed.

Lemma encode_keeps_zero_free_draw_witness :
  encode steady_rand 0 demo_message demo_key tt
  = Return ([x00; x02] ++ repeat x41 10 ++ [x00] ++ demo_message, tt).
Proof.
  apply (encode_keeps_zero_free_draw
           steady_rand 0 demo_message (repeat x41 10) demo_key tt tt).
  - vm_compute. discriminate.
  - reflexivity.
  - repeat constructor; discriminate.
Defined.

(** X2: the redraws only touch the 0x00 bytes of the first draw: every
    byte of that draw other than 0x00 sits in the encoded block at the same
    place of the padding string, two bytes in. *)
Theorem encode_keeps_nonzero_positions {St : Type}
    (randFunc : Z -> St -> bytes * St)
    (fuel : nat) (message raw em : bytes) (key : Key) (s s1 s' : St) :
  rand_contract randFunc ->
  randFunc (modulus_bytes key - Str.len message - 3) s = (raw, s1) ->
  encode randFunc fuel message key s = Return (em, s') ->
  forall i b,
    nth_error raw i = Some b -> b <> x00 ->
    nth_error em (2 + i) = Some b.
Proof.
  intros Hc Hraw He i b Hi Hb. unfold encode in He.
  fold (modulus_bytes key) in He.
  destruct (Str.len message >? modulus_bytes key - 11); [discriminate|].
  rewrite Hraw in He.
  destruct (map_nonZeroRandByte randFunc fuel (Str.chars raw) s1)
    as [[pss s2]|] eqn:Em; [|discriminate].
  inversion He. subst em s'.
  pose proof (map_nonZeroRandByte_positions randFunc fuel Hc raw s1 pss s2
                Em i b Hi Hb) as Hps.
  change (nth_error (Str.join pss ++ [x00] ++ message) i = Some b).
  rewrite nth_error_app1; [exact Hps|].
  apply nth_error_Some. rewrite Hps. discriminate.
Qed.

Lemma encode_keeps_nonzero_positions_witness :
  nth_error [x00; x02; x41; x41; x41; x41; x41; x41; x41; x41; x41; x41;
             x00; x68; x00; x69] (2 + 0) = Some x41.
Proof.
  apply (encode_keeps_nonzero_positions
           demo_rand 2 demo_message
           [x41; x00; x41; x00; x41; x00; x41; x00; x41; x00]
           _ demo_key false false true).
  - exact demo_rand_contract.
  - reflexivity.
  - reflexivity.
  - reflexivity.
  - discriminate.
Defined.

(** X3: the integer that [encrypt] hands to the public transform lies in
    the interval from [2 * 256 ^ (k - 2)] up to, and not including,
    [3 * 256 ^ (k - 2)], and that interval lies below the modulus: the
    transform is always applied to a residue. *)
Theorem encoded_integer_range {St : Type}
    (randFunc : Z -> St -> bytes * St)
    (fuel : nat) (message em : bytes) (key : Key) (s s' : St) :
  0 < n key ->
  rand_contract randFunc ->
  encode randFunc fuel message key s = Return (em, s') ->
  let B := 256 ^ (modulus_bytes key - 2) in
  2 * B <= Number.bytes_to_long em < 3 * B /\ 3 * B <= n key.
Proof.
  intros Hn Hc He B.
  destruct (encode_layout randFunc fuel message key s Hc em s' He)
    as [ps [Hem [_ [_ Hlen]]]].
  destruct (KeyFacts.modulus_bytes_bounds key Hn) as [_ [Hlo _]].
  rewrite Hem in Hlen |- *. unfold Str.len in Hlen.
  set (rest := ps ++ [x00] ++ message) in *.
  change ([x00; x02] ++ rest) with (x00 :: x02 :: rest) in *.
  cbn [length] in Hlen.
  assert (HB : B = 256 ^ Z.of_nat (length rest))
    by (subst B; f_equal; lia).
  replace (modulus_bytes key - 1) with (Z.of_nat (S (length rest))) in Hlo
    by lia.
  rewrite pow256_succ, <- HB in Hlo.
  rewrite !NumberFacts.bytes_to_long_cons. cbn [length].
  rewrite <- HB. pose proof (NumberFacts.bytes_to_long_range rest) as Hr.
  rewrite <- HB in Hr.
  change (byte_to_Z x00) with 0. change (byte_to_Z x02) with 2. lia.
Qed.

Lemma encoded_integer_range_witness :
  exists em s',
    encode demo_rand 2 demo_message demo_key true = Return (em, s') /\
    2 * 256 ^ 14 <= Number.bytes_to_long em < 3 * 256 ^ 14 /\
    3 * 256 ^ 14 <= n demo_key.
Proof.
  eexists. eexists. split; [reflexivity|].
  apply (encoded_integer_range demo_rand 2 demo_message _ demo_key true true).
  - reflexivity.
  - exact demo_rand_contract.
  - reflexivity.
Defined.

(** ** Further properties of the decoder *)

Module AcceptFacts.

Lemma decode_inv (ct em : bytes) (key : Key) :
  decode ct key = Return em ->
  Str.len ct = modulus_bytes key /\
  exists f, privateTransform key = Some f.
Proof.
  intro Hd. unfold decode, key_decrypt in Hd. fold (modulus_bytes key) in Hd.
  destruct (Str.len ct =? modulus_bytes key) eqn:E; [|discriminate].
  apply Z.eqb_eq in E. split; [exact E|].
  destruct (privateTransform key) as [f|]; [eauto | discriminate].
Qed.

Lemma decode_length (ct em : bytes) (key : Key) :
  valid_key key ->
  decode ct key = Return em ->
  Str.len em = modulus_bytes key.
Proof.
  intros Hv Hd. destruct (decode_inv ct em key Hd) as [Hlen [f Hf]].
  destruct (TransformFacts.block_fixed_width key f ct Hv Hf Hlen)
    as [Hd' [Hl _]].
  rewrite Hd in Hd'. injection Hd' as He. rewrite He. exact Hl.
Qed.

(** A block with the right prefix and its first 0x00 byte at [sep] splits
    as the encoder lays it out. *)
Lemma accepted_layout (em : bytes) (sep : nat) :
  prefix_ok em ->
  first_zero_from_2 em sep ->
  exists ps,
    em = [x00; x02] ++ ps ++ [x00] ++ skipn (S sep) em /\
    Forall (fun b => b <> x00) ps /\
    (2 + length ps = sep)%nat.
Proof.
  intros [H0 H1] [Hsep [Hz Hmin]].
  destruct em as [|a [|b rest]]; try discriminate.
  cbn in H0, H1. inversion H0. inversion H1. subst a b.
  destruct sep as [|[|j]]; try lia. cbn [nth_error] in Hz.
  destruct (nth_error_split rest j Hz) as [l1 [l2 [Hrest Hl1]]].
  subst rest. exists l1. split; [|split].
  - change (skipn (S (S (S j))) (x00 :: x02 :: l1 ++ x00 :: l2))
      with (skipn (S j) (l1 ++ x00 :: l2)).
    rewrite skipn_app, skipn_all2 by lia.
    replace (S j - length l1)%nat with 1%nat by lia. reflexivity.
  - apply Forall_forall. intros x Hx ->.
    destruct (In_nth_error l1 x00 Hx) as [i Hi].
    assert (Hlt : (i < length l1)%nat)
      by (apply nth_error_Some; rewrite Hi; discriminate).
    apply (Hmin (S (S i))); [lia|]. cbn [nth_error].
    rewrite nth_error_app1 by exact Hlt. exact Hi.
  - lia.
Qed.

(** The bytes [decrypt] returns for a block that passes validation. *)
Lemma decrypt_accepts (ct sentinel em ps message : bytes) (key : Key) :
  decode ct key = Return em ->
  em = [x00; x02] ++ ps ++ [x00] ++ message ->
  Forall (fun b => b <> x00) ps ->
  (8 <= length ps)%nat ->
  decrypt ct key sentinel = Return message.
Proof.
  intros Hd Hem Hnz Hlen.
  assert (Hok : ~ validation_fails em)
    by (rewrite Hem; apply TransformFacts.valid_layout; assumption).
  destruct (DecodeFacts.decrypt_valid ct key sentinel em Hd Hok)
    as [sep [Hz [_ Hr]]].
  pose proof (BlockFacts.layout_first_zero ps message Hnz) as Hs.
  rewrite <- Hem in Hs.
  rewrite Hr, (StrFacts.first_zero_unique em _ _ Hz Hs), Hem.
  rewrite BlockFacts.layout_message. reflexivity.
Qed.

End AcceptFacts.

Section RoundTripFacts.

Context {St : Type}.
Variable randFunc : Z -> St -> bytes * St.

(** Decoding what [encrypt] returned. *)
Lemma decrypt_encrypted (fuel : nat) (message sentinel c : bytes)
    (key : Key) (s s' : St) :
  valid_key key ->
  private_inverts_public key ->
  rand_contract randFunc ->
  encrypt randFunc fuel message key s = Return (c, s') ->
  decrypt c key sentinel = Return message.
Proof.
  intros Hv Hinv Hc He.
  destruct (encrypt_inv randFunc fuel message key s c s' He)
    as [em [Hen Hceq]].
  destruct (encode_layout randFunc fuel message key s Hc em s' Hen)
    as [ps [Hem [Hps [Hnz Hlen]]]].
  assert (Hval : 0 <= Number.bytes_to_long em < n key).
  { rewrite Hem. apply BlockFacts.layout_value; [exact (proj1 Hv)|].
    rewrite <- Hem. exact Hlen. }
  pose proof (TransformFacts.decode_ciphertext key em Hv Hinv Hlen Hval)
    as Hd.
  rewrite <- Hceq in Hd.
  apply (AcceptFacts.decrypt_accepts c sentinel em ps message key Hd Hem Hnz).
  assert (Hm : Str.len message <= modulus_bytes key - 11).
  { unfold encode in Hen. fold (modulus_bytes key) in Hen.
    destruct (Str.len message >? modulus_bytes key - 11) eqn:Hgt;
      [discriminate|].
    pose proof (Zgt_cases (Str.len message) (modulus_bytes key - 11)) as Hg.
    rewrite Hgt in Hg. exact Hg. }
  unfold Str.len in Hps, Hm. lia.
Qed.

End RoundTripFacts.

(** X4: whatever [decrypt] returns is either the sentinel or a message of
    at most [k - 11] bytes: a recovered message is never longer than what
    [encrypt] accepts. *)
Theorem decrypt_result_length (ct sentinel r : bytes) (key : Key) :
  valid_key key ->
  decrypt ct key sentinel = Return r ->
  r = sentinel \/ Str.len r <= modulus_bytes key - 11.
Proof.
  intros Hv Hr. unfold decrypt in Hr.
  destruct (decode ct key) as [em| |] eqn:Hd; try discriminate.
  fold (decrypt ct key sentinel) in Hr.
  pose proof (AcceptFacts.decode_length ct em key Hv Hd) as Hlen.
  destruct (DecodeFacts.validation_fails_dec em) as [Hbad | Hok].
  - left.
    pose proof (DecodeFacts.decrypt_invalid ct key sentinel em Hd Hbad) as H.
    unfold decrypt in H. rewrite Hd in H. congruence.
  - right.
    destruct (DecodeFacts.decrypt_valid ct key sentinel em Hd Hok)
      as [sep [[_ [Hz _]] [Hsep H]]].
    unfold decrypt in H. rewrite Hd in H. rewrite H in Hr.
    assert (Er : r = skipn (S sep) em) by congruence.
    assert (Hlt : (sep < length em)%nat)
      by (apply nth_error_Some; rewrite Hz; discriminate).
    rewrite Er. unfold Str.len in *. rewrite length_skipn. lia.
Qed.

Lemma decrypt_result_length_witness :
  demo_sentinel = [x01] \/
  Str.len demo_sentinel <= modulus_bytes demo_key - 11.
Proof.
  apply (decrypt_result_length coincident_ciphertext [x01] demo_sentinel
           demo_key).
  - exact demo_key_valid.
  - reflexivity.
Defined.

(** X6: with a modulus of fewer than 11 bytes [decrypt] returns the
    sentinel for every ciphertext of the right length: no block that short
    can hold eight padding bytes. *)
Theorem decrypt_small_modulus (ct sentinel : bytes) (key : Key)
    (f : Z -> Z) :
  valid_key key ->
  modulus_bytes key < 11 ->
  privateTransform key = Some f ->
  Str.len ct = modulus_bytes key ->
  decrypt ct key sentinel = Return sentinel.
Proof.
  intros Hv Hk Hf Hlen.
  destruct (TransformFacts.block_fixed_width key f ct Hv Hf Hlen)
    as [Hd [Hl _]].
  set (em := I2OSP _ _) in *.
  apply (DecodeFacts.decrypt_invalid ct key sentinel em Hd).
  destruct (DecodeFacts.validation_fails_dec em) as [Hbad | Hok];
    [exact Hbad|].
  destruct (DecodeFacts.decrypt_valid ct key sentinel em Hd Hok)
    as [sep [[_ [Hz _]] [Hsep _]]].
  assert (Hlt : (sep < length em)%nat)
    by (apply nth_error_Some; rewrite Hz; discriminate).
  unfold Str.len in Hl. lia.
Qed.

Lemma decrypt_small_modulus_witness :
  decrypt [x00; x02; x41; x41; x41; x00; x41; x41] tiny_key demo_sentinel
  = Return demo_sentinel.
Proof.
  apply (decrypt_small_modulus _ demo_sentinel tiny_key
           (fun c => (c - 1) mod tiny_modulus)).
  - split; [reflexivity|]. split.
    + intro x. apply Z.mod_pos_bound. reflexivity.
    + intros g Hg x. inversion Hg. apply Z.mod_pos_bound. reflexivity.
  - reflexivity.
  - reflexivity.
  - reflexivity.
Defined.

(** X7: [decrypt] accepts exactly the blocks laid out as [encrypt] lays
    them out.  A block 0x00 0x02, padding without 0x00, 0x00, message gives
    back the message when the padding has at least 8 bytes and the sentinel
    when it has fewer; and a returned value other than the sentinel is the
    message of such a block with at least 8 padding bytes. *)
Theorem decrypt_accepts_exactly_layout (ct sentinel em : bytes) (key : Key) :
  decode ct key = Return em ->
  (forall ps message,
      em = [x00; x02] ++ ps ++ [x00] ++ message ->
      Forall (fun b => b <> x00) ps ->
      ((8 <= length ps)%nat -> decrypt ct key sentinel = Return message) /\
      ((length ps < 8)%nat -> decrypt ct key sentinel = Return sentinel)) /\
  (forall r,
      decrypt ct key sentinel = Return r -> r <> sentinel ->
      exists ps,
        em = [x00; x02] ++ ps ++ [x00] ++ r /\
        Forall (fun b => b <> x00) ps /\
        (8 <= length ps)%nat).
Proof.
  intro Hd. split.
  - intros ps message Hem Hnz. split.
    + exact (AcceptFacts.decrypt_accepts ct sentinel em ps message key
               Hd Hem Hnz).
    + intro Hshort.
      apply (DecodeFacts.decrypt_invalid ct key sentinel em Hd).
      right. right. exists (2 + length ps)%nat. split; [|lia].
      rewrite Hem. apply BlockFacts.layout_first_zero, Hnz.
  - intros r Hr Hne.
    destruct (DecodeFacts.validation_fails_dec em) as [Hbad | Hok].
    + rewrite (DecodeFacts.decrypt_invalid ct key sentinel em Hd Hbad) in Hr.
      congruence.
    + destruct (DecodeFacts.decrypt_valid ct key sentinel em Hd Hok)
        as [sep [Hz [Hsep Hr']]].
      rewrite Hr' in Hr.
      assert (Er : skipn (S sep) em = r) by congruence.
      assert (Hp : prefix_ok em).
      { destruct (Str.startswith em [x00; x02]) eqn:E.
        - apply StrFacts.startswith_prefix, E.
        - exfalso. apply Hok. left. intro Hp.
          apply StrFacts.startswith_prefix in Hp. congruence. }
      destruct (AcceptFacts.accepted_layout em sep Hp Hz)
        as [ps [Hem [Hnz Hl]]].
      rewrite Er in Hem.
      exists ps. split; [exact Hem|]. split; [exact Hnz | lia].
Qed.

Lemma decrypt_accepts_exactly_layout_witness :
  decrypt coincident_ciphertext demo_key [x01] = Return demo_sentinel.
Proof.
  assert (Hd : decode coincident_ciphertext demo_key
               = Return coincident_block) by reflexivity.
  apply (proj1 (decrypt_accepts_exactly_layout
                  coincident_ciphertext [x01] coincident_block demo_key Hd)
           (repeat x41 11) demo_sentinel).
  - reflexivity.
  - repeat constructor; discriminate.
  - cbn. lia.
Defined.

(** X8: under a key whose private transform inverts its public one, two
    calls of [encrypt] that return the same ciphertext were given the same
    message, whatever the random bytes each of them drew. *)
Theorem encrypt_injective {St : Type} (randFunc : Z -> St -> bytes * St)
    (fuel1 fuel2 : nat) (m1 m2 c : bytes) (key : Key) (s1 s2 s1' s2' : St) :
  valid_key key ->
  private_inverts_public key ->
  rand_contract randFunc ->
  encrypt randFunc fuel1 m1 key s1 = Return (c, s1') ->
  encrypt randFunc fuel2 m2 key s2 = Return (c, s2') ->
  m1 = m2.
Proof.
  intros Hv Hinv Hc H1 H2.
  pose proof (decrypt_encrypted randFunc fuel1 m1 [] c key s1 s1'
                Hv Hinv Hc H1) as D1.
  pose proof (decrypt_encrypted randFunc fuel2 m2 [] c key s2 s2'
                Hv Hinv Hc H2) as D2.
  congruence.
Qed.

Lemma encrypt_injective_witness : [x68; x00; x69] = demo_message.
Proof.
  apply (encrypt_injective demo_rand 2 5 [x68; x00; x69] demo_message
           ([x00; x02] ++ repeat x41 10 ++ [x00; x68; x00; x6a])
           demo_key true true true true).
  - exact demo_key_valid.
  - exact demo_key_inverts.
  - exact demo_rand_contract.
  - reflexivity.
  - reflexivity.
Defined.


